(* ===================================================================== *)
(* A shallow embedding of the school-scraper web application:            *)
(*   app.py                   the status record, the log buffer, the     *)
(*                            background task and the start/stop routes  *)
(*   render_config.py         the configuration handler                  *)
(*   test_email_extraction.py the three-strategy e-mail extraction       *)
(*   test_complete_school_record.py the e-mail check                       *)
(* ===================================================================== *)

From stdpp Require Import gmap strings list fin_maps pretty.
From Stdlib Require Import NArith Ascii.

Local Open Scope string_scope.
Local Open Scope list_scope.

(* --------------------------------------------------------------------- *)
(* app.py : timestamps                                                    *)
(* --------------------------------------------------------------------- *)

(* What datetime.now() returns.  The fields are the ones strftime reads. *)
Record datetime := mk_datetime {
  year : nat; month : nat; day : nat;
  hour : nat; minute : nat; second : nat
}.

(* Decimal rendering, zero-padded on the left to a width of [w]. *)
Fixpoint zeros (k : nat) : string :=
  match k with
  | O => EmptyString
  | S k' => "0" +:+ zeros k'
  end.

Definition pad (w n : nat) : string :=
  let d := pretty n in zeros (w - String.length d) +:+ d.

(* strftime("%Y-%m-%d %H:%M:%S") *)
Definition strftime (t : datetime) : string :=
  pad 4 (year t) +:+ "-" +:+ pad 2 (month t) +:+ "-" +:+ pad 2 (day t)
  +:+ " " +:+ pad 2 (hour t) +:+ ":" +:+ pad 2 (minute t) +:+ ":"
  +:+ pad 2 (second t).

(* --------------------------------------------------------------------- *)
(* app.py : scraper_status                                                *)
(* --------------------------------------------------------------------- *)

(* The global dictionary scraper_status.  Its key set is fixed, so it is
   a record; the two state lists and the log are Python lists. *)
Record Status := mk_status {
  running : bool;
  current_state : option string;
  progress : nat;
  total_states : nat;
  completed_states : list string;
  failed_states : list string;
  start_time : option datetime;
  logs : list string
}.

(* The dictionary as the module creates it (lines 29-38). *)
Definition initial_status : Status :=
  {| running := false; current_state := None; progress := 0;
     total_states := 0; completed_states := []; failed_states := [];
     start_time := None; logs := [] |}.

Definition set_running (b : bool) (s : Status) : Status :=
  {| running := b; current_state := current_state s; progress := progress s;
     total_states := total_states s; completed_states := completed_states s;
     failed_states := failed_states s; start_time := start_time s;
     logs := logs s |}.

Definition set_current_state (c : option string) (s : Status) : Status :=
  {| running := running s; current_state := c; progress := progress s;
     total_states := total_states s; completed_states := completed_states s;
     failed_states := failed_states s; start_time := start_time s;
     logs := logs s |}.

Definition set_progress (i : nat) (s : Status) : Status :=
  {| running := running s; current_state := current_state s; progress := i;
     total_states := total_states s; completed_states := completed_states s;
     failed_states := failed_states s; start_time := start_time s;
     logs := logs s |}.

Definition set_total_states (n : nat) (s : Status) : Status :=
  {| running := running s; current_state := current_state s;
     progress := progress s; total_states := n;
     completed_states := completed_states s;
     failed_states := failed_states s; start_time := start_time s;
     logs := logs s |}.

Definition set_completed_states (l : list string) (s : Status) : Status :=
  {| running := running s; current_state := current_state s;
     progress := progress s; total_states := total_states s;
     completed_states := l; failed_states := failed_states s;
     start_time := start_time s; logs := logs s |}.

Definition set_failed_states (l : list string) (s : Status) : Status :=
  {| running := running s; current_state := current_state s;
     progress := progress s; total_states := total_states s;
     completed_states := completed_states s; failed_states := l;
     start_time := start_time s; logs := logs s |}.

Definition set_start_time (t : option datetime) (s : Status) : Status :=
  {| running := running s; current_state := current_state s;
     progress := progress s; total_states := total_states s;
     completed_states := completed_states s;
     failed_states := failed_states s; start_time := t; logs := logs s |}.

Definition set_logs (l : list string) (s : Status) : Status :=
  {| running := running s; current_state := current_state s;
     progress := progress s; total_states := total_states s;
     completed_states := completed_states s;
     failed_states := failed_states s; start_time := start_time s;
     logs := l |}.

(* --------------------------------------------------------------------- *)
(* app.py : add_log (lines 40-48)                                         *)
(* --------------------------------------------------------------------- *)

(* l[-k:] for k > 0 : the last k elements, the whole list when it has
   fewer. *)
Definition last_n {A} (k : nat) (l : list A) : list A :=
  drop (length l - k) l.

(* f"[{timestamp}] {message}" *)
Definition log_entry (now : datetime) (message : string) : string :=
  "[" +:+ strftime now +:+ "] " +:+ message.

(* [now] is the value datetime.now() returns inside the call.  The call to
   logger.info writes to the process log and leaves scraper_status alone. *)
Definition add_log (now : datetime) (message : string) (s : Status) : Status :=
  let appended := logs s ++ [log_entry now message] in
  if decide (100 < length appended)
  then set_logs (last_n 100 appended) s
  else set_logs appended s.

(* --------------------------------------------------------------------- *)
(* app.py : the collaborators of the background task                      *)
(* --------------------------------------------------------------------- *)

(* What data.get('states', None) can be, as far as the task looks at it:
   its truth value, its length and its items.
   - TNone: the key is absent, or its value is null or another falsy
     scalar;
   - TList l: a JSON array of names (an empty array is falsy in Python);
   - TScalar ty: a truthy value of a type without len() (a number, true);
     [ty] is the Python type name the TypeError message shows. *)
Inductive Targets :=
| TNone
| TList (l : list string)
| TScalar (ty : string).

(* bool(target_states) *)
Definition truthy (t : Targets) : bool :=
  match t with
  | TNone => false
  | TList l => match l with [] => false | _ :: _ => true end
  | TScalar _ => true
  end.

(* What a call of processor.process_complete_state(name) does: it returns
   a value whose truth is [success], or raises an Exception whose str() is
   [msg].  What `except Exception` does not catch (KeyboardInterrupt,
   SystemExit) is not among the outcomes. *)
Inductive Outcome :=
| Returned (success : bool)
| Raised (msg : string).

(* What SequentialStateProcessor() does: it builds a processor whose
   states_list is [catalog], or raises. *)
Inductive Construction :=
| Built (catalog : list string)
| CtorRaised (msg : string).

(* What the world answers during one step of the task. *)
Record Env := mk_env {
  now : datetime;
  construct : Construction;
  process_complete_state : string -> Outcome
}.

(* --------------------------------------------------------------------- *)
(* app.py : run_scraper_task (lines 50-97), one statement per step        *)
(* --------------------------------------------------------------------- *)

(* A step is one statement of the source.  Three steps group lines that
   only read: L60 is the test of line 60 with the assignment it selects
   (line 61 or 64), L68 is the fetch of the next item with the test of
   line 69, L89 is lines 89-91. *)

(* The statements of the loop body, named by their line. *)
Inductive BodyPoint :=
| B72 | B73 | B74 | B77
| B79 | B80
| B82 | B83
| B85 (msg : string) | B86 (msg : string).

(* The program points of the task, named by their line.  The points from
   L60 on carry the processor's states_list; L68 is the loop head with the
   list being iterated and enumerate's counter; the body points carry the
   loop variables. *)
Inductive PC :=
| L53 | L54 | L55 | L58
| L60 (catalog : list string)
| L62 (catalog : list string)
| L65 (catalog : list string)
| L68 (regions : list string) (i : nat)
| LBody (b : BodyPoint) (regions : list string) (i : nat) (state_name : string)
| L89
| L94 (msg : string)
| L96 | L97
| Done.

(* One background thread.  [visited] is a history variable: the regions
   for which the loop body was entered.  No step reads it. *)
Record Worker := mk_worker {
  target_states : Targets;
  pc : PC;
  visited : list string
}.

Definition goto (p : PC) (w : Worker) : Worker :=
  {| target_states := target_states w; pc := p; visited := visited w |}.

Definition enter (name : string) (p : PC) (w : Worker) : Worker :=
  {| target_states := target_states w; pc := p;
     visited := visited w ++ [name] |}.

(* target_states or processor.states_list *)
Definition regions_for (t : Targets) (catalog : list string) : list string :=
  match t with
  | TList l => if truthy t then l else catalog
  | _ => catalog
  end.

(* len(target_states) where it is defined *)
Definition targets_len (t : Targets) : nat :=
  match t with
  | TList l => length l
  | _ => 0
  end.

Definition body_step (e : Env) (b : BodyPoint) (regions : list string)
    (i : nat) (name : string) (w : Worker) (s : Status) : Worker * Status :=
  match b with
  | B72 => (goto (LBody B73 regions i name) w, set_current_state (Some name) s)
  | B73 => (goto (LBody B74 regions i name) w, set_progress i s)
  | B74 =>
      (goto (LBody B77 regions i name) w,
       add_log (now e)
         ("🏛️ Processing state " +:+ pretty (i + 1) +:+ "/"
          +:+ pretty (total_states s) +:+ ": " +:+ name) s)
  | B77 =>
      match process_complete_state e name with
      | Returned true => (goto (LBody B79 regions i name) w, s)
      | Returned false => (goto (LBody B82 regions i name) w, s)
      | Raised msg => (goto (LBody (B85 msg) regions i name) w, s)
      end
  | B79 =>
      (goto (LBody B80 regions i name) w,
       set_completed_states (completed_states s ++ [name]) s)
  | B80 =>
      (goto (L68 regions (S i)) w,
       add_log (now e) ("✅ Completed " +:+ name) s)
  | B82 =>
      (goto (LBody B83 regions i name) w,
       set_failed_states (failed_states s ++ [name]) s)
  | B83 =>
      (goto (L68 regions (S i)) w,
       add_log (now e) ("❌ Failed " +:+ name) s)
  | B85 msg =>
      (goto (LBody (B86 msg) regions i name) w,
       set_failed_states (failed_states s ++ [name]) s)
  | B86 msg =>
      (goto (L68 regions (S i)) w,
       add_log (now e)
         ("❌ Error processing " +:+ name +:+ ": " +:+ msg) s)
  end.

Definition worker_step (e : Env) (w : Worker) (s : Status) : Worker * Status :=
  match pc w with
  | L53 => (goto L54 w, set_running true s)
  | L54 => (goto L55 w, set_start_time (Some (now e)) s)
  | L55 => (goto L58 w, add_log (now e) "🚀 Starting school data scraper..." s)
  | L58 =>
      match construct e with
      | Built catalog => (goto (L60 catalog) w, s)
      | CtorRaised msg => (goto (L94 msg) w, s)
      end
  | L60 catalog =>
      if truthy (target_states w) then
        match target_states w with
        | TList l => (goto (L62 catalog) w, set_total_states (length l) s)
        | TScalar ty =>
            (goto (L94 ("object of type '" +:+ ty +:+ "' has no len()")) w, s)
        | TNone => (goto (L65 catalog) w, set_total_states (length catalog) s)
        end
      else (goto (L65 catalog) w, set_total_states (length catalog) s)
  | L62 catalog =>
      (goto (L68 (regions_for (target_states w) catalog) 0) w,
       add_log (now e)
         ("📋 Processing " +:+ pretty (targets_len (target_states w))
          +:+ " selected states") s)
  | L65 catalog =>
      (goto (L68 (regions_for (target_states w) catalog) 0) w,
       add_log (now e)
         ("📋 Processing all " +:+ pretty (length catalog) +:+ " states") s)
  | L68 regions i =>
      match regions !! i with
      | None => (goto L89 w, s)
      | Some name =>
          if running s
          then (enter name (LBody B72 regions i name) w, s)
          else (goto L89 w, s)
      end
  | LBody b regions i name => body_step e b regions i name w s
  | L89 =>
      (goto L96 w,
       add_log (now e)
         ("🎯 Scraping completed: " +:+ pretty (length (completed_states s))
          +:+ " successful, " +:+ pretty (length (failed_states s))
          +:+ " failed") s)
  | L94 msg => (goto L96 w, add_log (now e) ("❌ Scraper error: " +:+ msg) s)
  | L96 => (goto L97 w, set_running false s)
  | L97 => (goto Done w, set_current_state None s)
  | Done => (w, s)
  end.

(* --------------------------------------------------------------------- *)
(* app.py : the routes and the threads                                    *)
(* --------------------------------------------------------------------- *)

(* The process: the shared dictionary and the background threads that
   start_scraper has spawned, oldest first. *)
Record Config := mk_config {
  status : Status;
  workers : list Worker
}.

Inductive Response :=
| RError (msg : string) (code : nat)
| RMessage (msg : string)
| RStatus (s : Status)
| RNone.

(* get_status (lines 104-107): the dictionary, serialised. *)
Definition get_status (c : Config) : Response := RStatus (status c).

(* scraper_status.update({...}) of lines 119-127: seven of the eight keys;
   'start_time' is not among them. *)
Definition reset_status (s : Status) : Status :=
  {| running := true; current_state := None; progress := 0;
     total_states := 0; completed_states := []; failed_states := [];
     start_time := start_time s; logs := [] |}.

(* start_scraper (lines 109-134).  [body] is data.get('states', None). *)
Definition start_scraper (body : Targets) (c : Config) : Config * Response :=
  if running (status c) then (c, RError "Scraper is already running" 400)
  else
    ({| status := reset_status (status c);
        workers := workers c
                   ++ [{| target_states := body; pc := L53; visited := [] |}] |},
     RMessage "Scraper started successfully").

(* stop_scraper (lines 136-141). *)
Definition stop_scraper (t : datetime) (c : Config) : Config * Response :=
  ({| status := add_log t "🛑 Scraper stop requested"
                  (set_running false (status c));
      workers := workers c |},
   RMessage "Scraper stop requested").

(* What can happen next: a request is served, or thread [k] runs one
   statement.  Each is atomic here. *)
Inductive Action :=
| Start (body : Targets)
| Stop (t : datetime)
| Poll
| Step (k : nat) (e : Env).

Definition sys_step (a : Action) (c : Config) : Config * Response :=
  match a with
  | Start body => start_scraper body c
  | Stop t => stop_scraper t c
  | Poll => (c, get_status c)
  | Step k e =>
      match workers c !! k with
      | None => (c, RNone)
      | Some w =>
          let '(w', s') := worker_step e w (status c) in
          ({| status := s'; workers := <[k := w']> (workers c) |}, RNone)
      end
  end.

(* A schedule, run from left to right. *)
Fixpoint exec (sched : list Action) (c : Config) : Config :=
  match sched with
  | [] => c
  | a :: rest => exec rest (fst (sys_step a c))
  end.

Definition is_start (a : Action) : bool :=
  match a with Start _ => true | _ => false end.

(* The process right after an accepted start request on an idle process
   without threads. *)
Definition started (body : Targets) (s0 : Status) : Config :=
  fst (start_scraper body {| status := s0; workers := [] |}).

(* The thread running alone: [n] steps of thread 0, step number [t] seeing
   the clock at [t], with a fixed processor. *)
Definition env_at (clock : nat -> datetime) (ctor : Construction)
    (f : string -> Outcome) (t : nat) : Env :=
  {| now := clock t; construct := ctor; process_complete_state := f |}.

Definition solo (clock : nat -> datetime) (ctor : Construction)
    (f : string -> Outcome) (t0 n : nat) : list Action :=
  (fun t => Step 0 (env_at clock ctor f t)) <$> seq t0 n.

Definition succeeds (f : string -> Outcome) (name : string) : bool :=
  match f name with Returned true => true | _ => false end.


(* --------------------------------------------------------------------- *)
(* render_config.py                                                       *)
(* --------------------------------------------------------------------- *)

(* The Python values a configuration entry holds. *)
Inductive Value :=
| VNone
| VInt (n : Z)
| VStr (s : string)
| VBool (b : bool).

(* What the handler reads from its host: os.environ, and the outcome of
   `import config`: the attributes of the module, or None when the import
   raises ImportError. *)
Record Host := mk_host {
  environ : gmap string string;
  local_config : option (gmap string Value)
}.

Definition ascii_lower (c : Ascii.ascii) : Ascii.ascii :=
  let n := Ascii.nat_of_ascii c in
  if decide (65 <= n <= 90) then Ascii.ascii_of_nat (n + 32) else c.

(* str.lower(), on the ASCII letters.  The four words _get_env_bool
   compares with hold no letter that a non-ASCII character lowers to. *)
Fixpoint lower (s : string) : string :=
  match s with
  | EmptyString => EmptyString
  | String c s' => String (ascii_lower c) (lower s')
  end.

Module RenderConfigHandler.
Section Handler.

(* The builtin int() on a str: the integer read, or None for ValueError. *)
Variable int : string -> option Z.

(* os.getenv(key) *)
Definition getenv (h : Host) (key : string) : option string :=
environ h !! key.

(* os.getenv(key, default) *)
Definition getenv_default (h : Host) (key d : string) : Value :=
match getenv h key with
| Some v => VStr v
| None => VStr d
end.

Definition render_indicators : list string :=
["RENDER"; "RENDER_SERVICE_ID"; "RENDER_SERVICE_NAME";
 "RENDER_EXTERNAL_URL"].

(* lines 22-38: an indicator counts when it is set and not empty *)
Definition _detect_render_environment (h : Host) : bool :=
existsb (fun indicator =>
         match getenv h indicator with
         | Some v => negb (String.eqb v EmptyString)
         | None => false
         end) render_indicators.

(* lines 129-138 *)
Definition _get_env_int (h : Host) (key : string) (default : Value) : Value :=
match getenv h key with
| None => default
| Some value =>
  match int value with
  | Some n => VInt n
  | None => default
  end
end.

(* lines 140-145 *)
Definition _get_env_bool (h : Host) (key : string) (default : Value) : Value :=
match getenv h key with
| None => default
| Some value =>
  VBool (bool_decide (lower value ∈ ["true"; "1"; "yes"; "on"]))
end.

(* getattr(local_config, key, default) *)
Definition getattr (m : gmap string Value) (key : string) (d : Value) : Value :=
default d (m !! key).

(* lines 147-169 *)
Definition _get_fallback_config : gmap string Value :=
list_to_map
[("MAX_STATES", VNone);
 ("MAX_DISTRICTS_PER_STATE", VNone);
 ("WAIT_BETWEEN_STATES", VInt 3);
 ("WAIT_BETWEEN_DISTRICTS", VInt 2);
 ("WAIT_AFTER_SEARCH", VInt 5);
 ("WAIT_FOR_PAGE_LOAD", VInt 3);
 ("OUTPUT_DIRECTORY", VStr "output");
 ("BACKUP_FREQUENCY", VInt 100);
 ("IMPLICIT_WAIT", VInt 10);
 ("EXPLICIT_WAIT", VInt 10);
 ("PAGE_LOAD_TIMEOUT", VInt 30);
 ("BASE_URL", VStr "https://udiseplus.gov.in/#/en/home");
 ("LOG_LEVEL", VStr "INFO");
 ("LOG_FORMAT", VStr "%(asctime)s - %(levelname)s - %(message)s");
 ("MAX_RETRIES", VInt 3);
 ("RETRY_DELAY", VInt 5);
 ("HEADLESS", VBool true);
 ("WINDOW_SIZE", VStr "1920,1080");
 ("RENDER_DEPLOYMENT", VBool true)].

(* lines 46-66 *)
Definition config_from_environment (h : Host) : gmap string Value :=
list_to_map
[("MAX_STATES", _get_env_int h "MAX_STATES" VNone);
 ("MAX_DISTRICTS_PER_STATE", _get_env_int h "MAX_DISTRICTS_PER_STATE" VNone);
 ("WAIT_BETWEEN_STATES", _get_env_int h "WAIT_BETWEEN_STATES" (VInt 3));
 ("WAIT_BETWEEN_DISTRICTS", _get_env_int h "WAIT_BETWEEN_DISTRICTS" (VInt 2));
 ("WAIT_AFTER_SEARCH", _get_env_int h "WAIT_AFTER_SEARCH" (VInt 5));
 ("WAIT_FOR_PAGE_LOAD", _get_env_int h "WAIT_FOR_PAGE_LOAD" (VInt 3));
 ("OUTPUT_DIRECTORY", getenv_default h "OUTPUT_DIRECTORY" "output");
 ("BACKUP_FREQUENCY", _get_env_int h "BACKUP_FREQUENCY" (VInt 100));
 ("IMPLICIT_WAIT", _get_env_int h "IMPLICIT_WAIT" (VInt 10));
 ("EXPLICIT_WAIT", _get_env_int h "EXPLICIT_WAIT" (VInt 10));
 ("PAGE_LOAD_TIMEOUT", _get_env_int h "PAGE_LOAD_TIMEOUT" (VInt 30));
 ("BASE_URL", getenv_default h "BASE_URL" "https://udiseplus.gov.in/#/en/home");
 ("LOG_LEVEL", getenv_default h "LOG_LEVEL" "INFO");
 ("LOG_FORMAT",
  getenv_default h "LOG_FORMAT" "%(asctime)s - %(levelname)s - %(message)s");
 ("MAX_RETRIES", _get_env_int h "MAX_RETRIES" (VInt 3));
 ("RETRY_DELAY", _get_env_int h "RETRY_DELAY" (VInt 5));
 ("HEADLESS", _get_env_bool h "HEADLESS" (VBool true));
 ("WINDOW_SIZE", getenv_default h "WINDOW_SIZE" "1920,1080");
 ("RENDER_DEPLOYMENT", VBool true)].

(* lines 72-92 *)
Definition config_from_module (m : gmap string Value) : gmap string Value :=
list_to_map
[("MAX_STATES", getattr m "MAX_STATES" VNone);
 ("MAX_DISTRICTS_PER_STATE", getattr m "MAX_DISTRICTS_PER_STATE" VNone);
 ("WAIT_BETWEEN_STATES", getattr m "WAIT_BETWEEN_STATES" (VInt 3));
 ("WAIT_BETWEEN_DISTRICTS", getattr m "WAIT_BETWEEN_DISTRICTS" (VInt 2));
 ("WAIT_AFTER_SEARCH", getattr m "WAIT_AFTER_SEARCH" (VInt 5));
 ("WAIT_FOR_PAGE_LOAD", getattr m "WAIT_FOR_PAGE_LOAD" (VInt 3));
 ("OUTPUT_DIRECTORY", getattr m "OUTPUT_DIRECTORY" (VStr "output"));
 ("BACKUP_FREQUENCY", getattr m "BACKUP_FREQUENCY" (VInt 100));
 ("IMPLICIT_WAIT", getattr m "IMPLICIT_WAIT" (VInt 10));
 ("EXPLICIT_WAIT", getattr m "EXPLICIT_WAIT" (VInt 10));
 ("PAGE_LOAD_TIMEOUT", getattr m "PAGE_LOAD_TIMEOUT" (VInt 30));
 ("BASE_URL", getattr m "BASE_URL" (VStr "https://udiseplus.gov.in/#/en/home"));
 ("LOG_LEVEL", getattr m "LOG_LEVEL" (VStr "INFO"));
 ("LOG_FORMAT",
  getattr m "LOG_FORMAT" (VStr "%(asctime)s - %(levelname)s - %(message)s"));
 ("MAX_RETRIES", getattr m "MAX_RETRIES" (VInt 3));
 ("RETRY_DELAY", getattr m "RETRY_DELAY" (VInt 5));
 ("HEADLESS", getattr m "HEADLESS" (VBool false));
 ("WINDOW_SIZE", getattr m "WINDOW_SIZE" (VStr "1920,1080"));
 ("RENDER_DEPLOYMENT", getattr m "RENDER_DEPLOYMENT" (VBool false))].

(* lines 40-99; self.is_render_deployment is what line 18 stored *)
Definition _load_config (h : Host) : gmap string Value :=
if _detect_render_environment h then config_from_environment h
else
match local_config h with
| Some m => config_from_module m
| None => _get_fallback_config
end.

(* lines 171-173, on the handler that __init__ built on host [h] *)
Definition get_config (h : Host) (key : string) (d : Value) : Value :=
default d (_load_config h !! key).

(* Where a key is looked up on host [h], and whether it is missing
 there: the environment on Render, the attributes of config.py when
 the import works; with neither, nothing is looked up. *)
Definition absent (h : Host) (key : string) : Prop :=
if _detect_render_environment h then getenv h key = None
else
match local_config h with
| Some m => m !! key = None
| None => True
end.

(* An environment value that int() refuses, on Render. *)
Definition unparsable (h : Host) (key : string) : Prop :=
_detect_render_environment h = true /\
exists value, getenv h key = Some value /\ int value = None.

End Handler.
End RenderConfigHandler.

(* An int() for the examples: an optional sign and ASCII digits; these
   int() reads as written. *)
Definition digit_of (c : Ascii.ascii) : option Z :=
  let n := Ascii.nat_of_ascii c in
  if decide (48 <= n <= 57) then Some (Z.of_nat (n - 48)) else None.

Fixpoint digits_value (acc : Z) (s : string) : option Z :=
  match s with
  | EmptyString => Some acc
  | String c s' =>
      match digit_of c with
      | Some d => digits_value (10 * acc + d) s'
      | None => None
      end
  end.

Definition int_ascii (s : string) : option Z :=
  match s with
  | EmptyString => None
  | String "-"%char s' =>
      if String.eqb s' EmptyString then None
      else Z.opp <$> digits_value 0 s'
  | String "+"%char s' =>
      if String.eqb s' EmptyString then None else digits_value 0 s'
  | _ => digits_value 0 s
  end.

(* The configuration keys of the core, with the default of each. *)
Definition core_defaults : list (string * Value) :=
  [("MAX_RETRIES", VInt 3);
   ("RETRY_DELAY", VInt 5);
   ("BACKUP_FREQUENCY", VInt 100);
   ("WAIT_BETWEEN_STATES", VInt 3);
   ("WAIT_BETWEEN_DISTRICTS", VInt 2);
   ("OUTPUT_DIRECTORY", VStr "output")].

(* The keys among them that _get_env_int reads. *)
Definition core_int_defaults : list (string * Value) :=
  [("MAX_RETRIES", VInt 3);
   ("RETRY_DELAY", VInt 5);
   ("BACKUP_FREQUENCY", VInt 100);
   ("WAIT_BETWEEN_STATES", VInt 3);
   ("WAIT_BETWEEN_DISTRICTS", VInt 2)].


(* --------------------------------------------------------------------- *)
(* Python text and the part of the re module the patterns use             *)
(* --------------------------------------------------------------------- *)

(* A Python str is a sequence of code points. *)
Definition text := list N.

(* The code points of a literal written in ASCII. *)
Fixpoint cp (s : string) : text :=
  match s with
  | EmptyString => []
  | String c s' => N_of_ascii c :: cp s'
  end.

(* The same, each apostrophe of the literal standing for a double quote:
   markup is written with apostrophes around attribute values. *)
Definition markup (s : string) : text :=
  (fun c => if N.eqb c 39 then 34%N else c) <$> cp s.

(* str.isspace() of one character: the white space of Unicode. *)
Definition is_space (c : N) : bool :=
  bool_decide (c ∈ [9; 10; 11; 12; 13; 28; 29; 30; 31; 32; 133; 160; 5760;
                    8192; 8193; 8194; 8195; 8196; 8197; 8198; 8199; 8200;
                    8201; 8202; 8232; 8233; 8239; 8287; 12288]%N).

Fixpoint lstrip (s : text) : text :=
  match s with
  | c :: s' => if is_space c then lstrip s' else s
  | [] => []
  end.

Definition rstrip (s : text) : text := reverse (lstrip (reverse s)).

(* str.strip() *)
Definition strip (s : text) : text := rstrip (lstrip s).

(* s[a:b] for 0 <= a <= b *)
Definition slice (a b : nat) (s : text) : text := take (b - a) (drop a s).

Module Re.

(* A member of a bracket set. *)
Inductive SetItem :=
| Single (c : ascii)
| Range (lo hi : ascii).

(* What matches exactly one character: a literal, a bracket set, a
   negated bracket set, or \s. *)
Inductive Atom :=
| Lit (c : ascii)
| OneOf (items : list SetItem)
| NoneOf (items : list SetItem)
| Space.

(* The pieces of a pattern, in sequence.  [Repeat min a] is the greedy
   a{min,}: a* is Repeat 0 and a+ is Repeat 1.  The empty pieces are the
   borders of a numbered group and the word boundary \b. *)
Inductive Node :=
| One (a : Atom)
| Repeat (min : nat) (a : Atom)
| GroupOpen (g : nat)
| GroupClose (g : nat)
| Boundary.

Definition Pattern := list Node.

(* A run of literal characters. *)
Fixpoint lit (s : string) : Pattern :=
  match s with
  | EmptyString => []
  | String c s' => One (Lit c) :: lit s'
  end.

Definition item_match (i : SetItem) (x : N) : bool :=
  match i with
  | Single c => N.eqb x (N_of_ascii c)
  | Range lo hi => N.leb (N_of_ascii lo) x && N.leb x (N_of_ascii hi)
  end.

Definition atom_match (a : Atom) (x : N) : bool :=
  match a with
  | Lit c => N.eqb x (N_of_ascii c)
  | OneOf items => existsb (fun i => item_match i x) items
  | NoneOf items => negb (existsb (fun i => item_match i x) items)
  | Space => is_space x
  end.

(* Where the matcher stands: the index in the subject, the character
   before it, the groups opened and the groups closed so far. *)
Record Cursor := mk_cursor {
  pos : nat;
  prev : option N;
  opened : list (nat * nat);
  closed : list (nat * (nat * nat))
}.

Definition advance (x : N) (c : Cursor) : Cursor :=
  {| pos := S (pos c); prev := Some x; opened := opened c;
     closed := closed c |}.

Definition open_group (g : nat) (c : Cursor) : Cursor :=
  {| pos := pos c; prev := prev c; opened := (g, pos c) :: opened c;
     closed := closed c |}.

Definition start_of (g : nat) (o : list (nat * nat)) : nat :=
  match list_find (fun p => fst p = g) o with
  | Some (_, (_, a)) => a
  | None => 0
  end.

Definition close_group (g : nat) (c : Cursor) : Cursor :=
  {| pos := pos c; prev := prev c; opened := opened c;
     closed := (g, (start_of g (opened c), pos c)) :: closed c |}.

(* The cursor after the characters of [u]. *)
Fixpoint advance_all (u : text) (c : Cursor) : Cursor :=
  match u with
  | [] => c
  | x :: u' => advance_all u' (advance x c)
  end.

(* The character before the position reached by skipping [skipped] from a
   position after [before]. *)
Definition prev_after (before : option N) (skipped : text) : option N :=
  match last skipped with
  | Some x => Some x
  | None => before
  end.

Section Matcher.

(* str.isalnum() of a character beyond ASCII: the table of Unicode. *)
Variable unicode_alnum : N -> bool.

(* \w *)
Definition is_word (x : N) : bool :=
  if N.ltb x 128 then
    atom_match (OneOf [Range "a" "z"; Range "A" "Z"; Range "0" "9";
                       Single "_"]%char) x
  else unicode_alnum x.

Definition word_at (o : option N) : bool :=
  match o with Some x => is_word x | None => false end.

(* \b holds between a word character and what is not one, the two
   ends of the subject counting as not one. *)
Definition at_boundary (before : option N) (rest : text) : bool :=
  xorb (word_at before) (word_at (head rest)).

(* Greedy repetition with backtracking: take one more character when
   the atom allows and the rest of the pattern then matches; give the
   turn to the rest of the pattern [k] here otherwise, once [min]
   characters were taken. *)
Fixpoint repeat_greedy (a : Atom) (min : nat)
    (k : Cursor -> text -> option Cursor)
    (c : Cursor) (rest : text) : option Cursor :=
  match rest with
  | x :: rest' =>
      if atom_match a x then
        match repeat_greedy a (pred min) k (advance x c) rest' with
        | Some r => Some r
        | None => if decide (min = 0) then k c rest else None
        end
      else if decide (min = 0) then k c rest else None
  | [] => if decide (min = 0) then k c rest else None
  end.

(* The pattern matched at the cursor: the cursor at the end of the
   first match in backtracking order. *)
Fixpoint match_here (p : Pattern) (c : Cursor) (rest : text)
    : option Cursor :=
  match p with
  | [] => Some c
  | One a :: p' =>
      match rest with
      | x :: rest' =>
          if atom_match a x then match_here p' (advance x c) rest'
          else None
      | [] => None
      end
  | Repeat min a :: p' => repeat_greedy a min (match_here p') c rest
  | GroupOpen g :: p' => match_here p' (open_group g c) rest
  | GroupClose g :: p' => match_here p' (close_group g c) rest
  | Boundary :: p' =>
      if at_boundary (prev c) rest then match_here p' c rest else None
  end.

(* A match object: span() and the spans of the groups. *)
Record Match := mk_match {
  m_start : nat;
  m_end : nat;
  m_groups : list (nat * (nat * nat))
}.

Fixpoint search_from (p : Pattern) (i : nat) (before : option N)
    (rest : text) : option Match :=
  match match_here p (mk_cursor i before [] []) rest with
  | Some c => Some (mk_match i (pos c) (closed c))
  | None =>
      match rest with
      | x :: rest' => search_from p (S i) (Some x) rest'
      | [] => None
      end
  end.

(* re.search(p, subject) *)
Definition search (p : Pattern) (subject : text) : option Match :=
  search_from p 0 None subject.

(* re.sub(p, repl, subject) for a pattern that matches no empty text and
   a replacement without group references: the matches are replaced from
   left to right, each search starting where the match before it ended. *)
Fixpoint sub_loop (fuel : nat) (p : Pattern) (repl : text) (i : nat)
    (before : option N) (rest : text) : text :=
  match fuel with
  | O => rest
  | S fuel' =>
      match rest with
      | [] => []
      | x :: rest' =>
          match match_here p (mk_cursor i before [] []) rest with
          | Some c =>
              if decide (i < pos c) then
                repl ++ sub_loop fuel' p repl (pos c)
                          (prev_after before (take (pos c - i) rest))
                          (drop (pos c - i) rest)
              else x :: sub_loop fuel' p repl (S i) (Some x) rest'
          | None => x :: sub_loop fuel' p repl (S i) (Some x) rest'
          end
      end
  end.

Definition sub (p : Pattern) (repl subject : text) : text :=
  sub_loop (length subject) p repl 0 None subject.

(* What it is for a pattern to match, without an order of trial:
   [Matches p c rest c' rest'] when the pattern can take the subject from
   cursor [c], with [rest] ahead, to cursor [c'], with [rest'] ahead. *)
Inductive Matches : Pattern -> Cursor -> text -> Cursor -> text -> Prop :=
| M_end c rest : Matches [] c rest c rest
| M_one a p c x rest c' rest' :
    atom_match a x = true ->
    Matches p (advance x c) rest c' rest' ->
    Matches (One a :: p) c (x :: rest) c' rest'
| M_repeat min a p c u rest c' rest' :
    Forall (fun x => atom_match a x = true) u ->
    min <= length u ->
    Matches p (advance_all u c) rest c' rest' ->
    Matches (Repeat min a :: p) c (u ++ rest) c' rest'
| M_open g p c rest c' rest' :
    Matches p (open_group g c) rest c' rest' ->
    Matches (GroupOpen g :: p) c rest c' rest'
| M_close g p c rest c' rest' :
    Matches p (close_group g c) rest c' rest' ->
    Matches (GroupClose g :: p) c rest c' rest'
| M_boundary p c rest c' rest' :
    at_boundary (prev c) rest = true ->
    Matches p c rest c' rest' ->
    Matches (Boundary :: p) c rest c' rest'.

End Matcher.

(* m.group(g) of a match in [subject]; group 0 is the whole match. *)
Definition group (g : nat) (m : Match) (subject : text) : text :=
  match g with
  | O => slice (m_start m) (m_end m) subject
  | _ =>
      match list_find (fun p => fst p = g) (m_groups m) with
      | Some (_, (_, (a, b))) => slice a b subject
      | None => []
      end
  end.

End Re.

(* --------------------------------------------------------------------- *)
(* test_email_extraction.py : extract_email_from_html (lines 86-105)      *)
(* --------------------------------------------------------------------- *)

Definition dquote : ascii := "034"%char.

Section Patterns.
Import Re.
Local Open Scope char_scope.

(* <span[^>]*class="[^"]*ms-2[^"]*"[^>]*>([^<]+@[^<]+)</span> *)
Definition span_pattern : Pattern :=
  lit "<span" ++ [Repeat 0 (NoneOf [Single ">"])]
  ++ lit "class=" ++ [One (Lit dquote); Repeat 0 (NoneOf [Single dquote])]
  ++ lit "ms-2"
  ++ [Repeat 0 (NoneOf [Single dquote]); One (Lit dquote);
      Repeat 0 (NoneOf [Single ">"]); One (Lit ">");
      GroupOpen 1;
      Repeat 1 (NoneOf [Single "<"]); One (Lit "@");
      Repeat 1 (NoneOf [Single "<"]);
      GroupClose 1]
  ++ lit "</span>".

(* href="mailto:([^"]+@[^"]+)" *)
Definition mailto_pattern : Pattern :=
  lit "href=" ++ [One (Lit dquote)] ++ lit "mailto:"
  ++ [GroupOpen 1;
      Repeat 1 (NoneOf [Single dquote]); One (Lit "@");
      Repeat 1 (NoneOf [Single dquote]);
      GroupClose 1;
      One (Lit dquote)].

(* The three bracket sets of the last pattern. *)
Definition local_chars : Atom :=
  OneOf [Range "A" "Z"; Range "a" "z"; Range "0" "9";
         Single "."; Single "_"; Single "%"; Single "+"; Single "-"].

Definition host_chars : Atom :=
  OneOf [Range "A" "Z"; Range "a" "z"; Range "0" "9"; Single "."; Single "-"].

Definition tld_chars : Atom :=
  OneOf [Range "A" "Z"; Single "|"; Range "a" "z"].

(* \b[A-Za-z0-9._%+-]+@[A-Za-z0-9.-]+\.[A-Z|a-z]{2,}\b *)
Definition email_pattern : Pattern :=
  [Boundary; Repeat 1 local_chars; One (Lit "@"); Repeat 1 host_chars;
   One (Lit "."); Repeat 2 tld_chars; Boundary].

(* <[^>]+> and \s+, the two patterns of the test harness *)
Definition tag_pattern : Pattern :=
  [One (Lit "<"); Repeat 1 (NoneOf [Single ">"]); One (Lit ">")].

Definition spaces_pattern : Pattern := [Repeat 1 Space].

End Patterns.

Definition sentinel : text := cp "N/A".

Section Extraction.

Variable unicode_alnum : N -> bool.

(* The value of each strategy where it applies. *)
Definition strategy1 (element_html : text) : option text :=
  (fun m => strip (Re.group 1 m element_html))
    <$> Re.search unicode_alnum span_pattern element_html.

Definition strategy2 (element_html : text) : option text :=
  (fun m => strip (Re.group 1 m element_html))
    <$> Re.search unicode_alnum mailto_pattern element_html.

Definition strategy3 (element_text : text) : option text :=
  (fun m => strip (Re.group 0 m element_text))
    <$> Re.search unicode_alnum email_pattern element_text.

Definition extract_email_from_html (element_html element_text : text) : text :=
  match Re.search unicode_alnum span_pattern element_html with
  | Some email_span_match => strip (Re.group 1 email_span_match element_html)
  | None =>
      match Re.search unicode_alnum mailto_pattern element_html with
      | Some mailto_match => strip (Re.group 1 mailto_match element_html)
      | None =>
          match Re.search unicode_alnum email_pattern element_text with
          | Some email_text_match =>
              strip (Re.group 0 email_text_match element_text)
          | None => sentinel
          end
      end
  end.

(* lines 114-115 of the harness: the text content that stands for what
   the browser would give for the markup *)
Definition text_content (html : text) : text :=
  strip (Re.sub unicode_alnum spaces_pattern (cp " ")
           (Re.sub unicode_alnum tag_pattern (cp " ") html)).

End Extraction.

(* A table for the examples, whose texts are ASCII. *)
Definition no_alnum (x : N) : bool := false.

(* --------------------------------------------------------------------- *)
(* render_config.py : the credentials (lines 101-127, 175-190)            *)
(* --------------------------------------------------------------------- *)

(* What reading credentials.json gives (lines 119-120): the file is
   missing, its text, or another exception from open() or read(). *)
Inductive FileRead :=
| NotFound
| Content (text : string)
| ReadRaises (msg : string).

Section Credentials.

(* The values json.loads builds other than None, and their truth. *)
Variable Json : Type.
Variable json_truth : Json -> bool.

(* json.loads: None stands for JSONDecodeError, Some None for the value
   None that the text null decodes to. *)
Variable loads : string -> option (option Json).

(* The text json.dump(..., indent=2) writes. *)
Variable dumps : Json -> string.

(* lines 101-127, with self.is_render_deployment as line 18 stored it;
   inl is an exception that leaves the function *)
Definition _load_credentials (h : Host) (file : FileRead)
    : string + option Json :=
  if RenderConfigHandler._detect_render_environment h then
    match RenderConfigHandler.getenv h "GOOGLE_CREDENTIALS_JSON" with
    | Some creds_json =>
        if String.eqb creds_json EmptyString then inr None
        else
          match loads creds_json with
          | Some credentials => inr credentials
          | None => inr None
          end
    | None => inr None
    end
  else
    match file with
    | NotFound => inr None
    | Content text =>
        match loads text with
        | Some credentials => inr credentials
        | None => inr None
        end
    | ReadRaises msg => inl msg
    end.

(* lines 179-190, on a handler whose credentials are [credentials];
   [name] is the name of the file tempfile creates.  The result is the
   value returned and the file written, with its text. *)
Definition save_credentials_to_temp_file (credentials : option Json)
    (name : string) : option string * option (string * string) :=
  match credentials with
  | Some j =>
      if json_truth j then (Some name, Some (name, dumps j))
      else (None, None)
  | None => (None, None)
  end.

End Credentials.

(* --------------------------------------------------------------------- *)
(* app.py : health_check (lines 184-194)                                  *)
(* --------------------------------------------------------------------- *)

(* The dictionary the route serialises; [health_timestamp] is the value
   of datetime.now() that isoformat() renders. *)
Record Health := mk_health {
  health_status : string;
  health_timestamp : datetime;
  health_headless : Value;
  health_render_deployment : Value
}.

(* On the handler that render_config built on host [h]. *)
Definition health_check (int : string -> option Z) (h : Host)
    (now : datetime) : Health :=
  {| health_status := "healthy";
     health_timestamp := now;
     health_headless := RenderConfigHandler.get_config int h "HEADLESS" VNone;
     health_render_deployment :=
       RenderConfigHandler.get_config int h "RENDER_DEPLOYMENT" VNone |}.

(* --------------------------------------------------------------------- *)
(* app.py : the file routes (lines 143-176)                               *)
(* --------------------------------------------------------------------- *)

(* What an entry of the working directory is to the two routes:
   - Regular: a file that can be read;
   - Unreadable msg: os.stat works but opening it raises an exception
     whose str() is [msg] (a directory, a file without read permission);
   - Dangling msg: a symbolic link to nothing; the directory lists it, but
     os.stat raises (str() is [msg]) and os.path.exists is False. *)
Inductive EntryKind :=
| Regular
| Unreadable (msg : string)
| Dangling (msg : string).

(* One entry: its name, and what os.path.getsize and
   datetime.fromtimestamp(os.path.getmtime(...)).isoformat() give. *)
Record DirEntry := mk_entry {
  entry_name : string;
  entry_kind : EntryKind;
  entry_size : N;
  entry_modified : string
}.

(* The working directory, in the order in which the system lists it.  It
   is also the directory where send_file looks a relative name up. *)
Definition Directory := list DirEntry.

(* The dictionary file_info of lines 152-156. *)
Record FileInfo := mk_file_info {
  fi_name : string;
  fi_size : N;
  fi_modified : string
}.

Inductive FileResponse :=
| FilesListed (files : list FileInfo)
| FileSent (e : DirEntry)
| FileError (msg : string) (code : nat).

(* str.endswith *)
Fixpoint endswith (s suffix : string) : bool :=
  String.eqb s suffix ||
  match s with
  | EmptyString => false
  | String _ s' => endswith s' suffix
  end.

(* A name that a pattern starting with * does not match. *)
Definition hidden (name : string) : bool :=
  match name with
  | String "."%char _ => true
  | _ => false
  end.

(* glob.glob("*" + suffix): the entries whose name ends with [suffix],
   the hidden ones left out; the path of each is its name. *)
Definition glob_star (suffix : string) (dir : Directory) : list DirEntry :=
  List.filter (fun e => negb (hidden (entry_name e))
                        && endswith (entry_name e) suffix) dir.

(* lines 152-156 for one path; inl is the exception of os.path.getsize *)
Definition file_info (e : DirEntry) : string + FileInfo :=
  match entry_kind e with
  | Dangling msg => inl msg
  | _ => inr {| fi_name := entry_name e; fi_size := entry_size e;
                fi_modified := entry_modified e |}
  end.

(* The two loops of lines 150-157 over the paths found, up to the first
   exception. *)
Fixpoint collect_infos (paths : list DirEntry) : string + list FileInfo :=
  match paths with
  | [] => inr []
  | e :: rest =>
      match file_info e with
      | inl msg => inl msg
      | inr info =>
          match collect_infos rest with
          | inl msg => inl msg
          | inr files => inr (info :: files)
          end
      end
  end.

(* list_files (lines 143-161) *)
Definition list_files (dir : Directory) : FileResponse :=
  match collect_infos (glob_star ".csv" dir ++ glob_star ".xlsx" dir) with
  | inr files => FilesListed files
  | inl msg => FileError msg 500
  end.

(* The entry a name without a directory part refers to. *)
Definition find_entry (dir : Directory) (filename : string) : option DirEntry :=
  List.find (fun e => String.eqb (entry_name e) filename) dir.

(* download_file (lines 163-176).  [filename] is the path segment of the
   request; the router gives one without a slash. *)
Definition download_file (dir : Directory) (filename : string) : FileResponse :=
  if negb (endswith filename ".csv" || endswith filename ".xlsx")
  then FileError "Invalid file type" 400
  else
    match find_entry dir filename with
    | None => FileError "File not found" 404
    | Some e =>
        match entry_kind e with
        | Dangling _ => FileError "File not found" 404
        | Unreadable msg => FileError msg 500
        | Regular => FileSent e
        end
    end.

(* --------------------------------------------------------------------- *)
(* test_complete_school_record.py : the e-mail check (lines 107-114)      *)
(* --------------------------------------------------------------------- *)

Section Validation.

Variable unicode_alnum : N -> bool.

(* re.match(p, subject): the pattern at the start of the subject. *)
Definition re_match (p : Re.Pattern) (subject : text) : option Re.Cursor :=
  Re.match_here unicode_alnum p (Re.mk_cursor 0 None [] []) subject.

(* is_valid of lines 111-114 for one value of the field; None is the
   Python None.  The pattern of line 108 is the one of strategy 3. *)
Definition is_valid (email : option text) : bool :=
  match email with
  | None => false
  | Some e =>
      if decide (e = sentinel) then true
      else if decide (e = []) then false
      else
        match re_match email_pattern e with
        | Some _ => true
        | None => false
        end
  end.

End Validation.

(* ===================================================================== *)
(* The vocabulary of the properties, and the data of the examples         *)
(* ===================================================================== *)

(* Appending a whole sequence of messages, each at its own time. *)
Definition add_logs (entries : list (datetime * string)) (s : Status) : Status :=
  foldl (fun s e => add_log (fst e) (snd e) s) s entries.

Definition entry_of (e : datetime * string) : string := log_entry (fst e) (snd e).

(* The data of the examples: a time, a full log, a process in the middle
   of a run, an idle one, and one that has finished a run. *)
Definition t0 : datetime := mk_datetime 2024 3 7 9 5 0.

Definition full_log : Status := set_logs (replicate 100 "old") initial_status.

Definition busy : Config :=
  {| status := set_running true initial_status;
     workers := [{| target_states := TNone; pc := L55; visited := [] |}] |}.

(* The fields of the status record other than the log. *)
Definition same_but_logs (s s' : Status) : Prop :=
  running s' = running s /\
  current_state s' = current_state s /\
  progress s' = progress s /\
  total_states s' = total_states s /\
  completed_states s' = completed_states s /\
  failed_states s' = failed_states s /\
  start_time s' = start_time s.

Definition idle : Config := {| status := initial_status; workers := [] |}.

Definition after_a_run : Config :=
  {| status :=
       {| running := false; current_state := None; progress := 1;
          total_states := 2; completed_states := ["Goa"];
          failed_states := ["Bihar"]; start_time := Some t0;
          logs := ["[2024-03-07 09:05:00] 🚀 Starting school data scraper..."] |};
     workers := [{| target_states := TNone; pc := Done;
                    visited := ["Goa"; "Bihar"] |}] |}.

Definition demo_env (sec : nat) : Env :=
  {| now := mk_datetime 2024 3 8 10 0 sec;
     construct := Built ["Goa"; "Bihar"];
     process_complete_state := fun _ => Returned true |}.

(* The outcome that puts a region in the completed list. *)
Definition ok (f : string -> Outcome) (name : string) : Prop :=
  f name = Returned true.

#[local] Instance Outcome_eq_dec : EqDecision Outcome.
Proof. solve_decision. Defined.

#[local] Instance ok_dec f name : Decision (ok f name).
Proof. unfold ok. apply _. Defined.

(* A request value the task can take the length of. *)
Definition sized (t : Targets) : Prop :=
  match t with TScalar _ => False | _ => True end.

(* A clock that ticks once a step. *)
Definition clock0 (t : nat) : datetime :=
  mk_datetime 2024 3 7 9 (t / 60) (t mod 60).

(* A processor that times out on Goa and reports failure on Bihar. *)
Definition moody (name : string) : Outcome :=
  if String.eqb name "Goa" then Raised "timeout"
  else if String.eqb name "Bihar" then Returned false
  else Returned true.

(* A schedule of one run: no start request in it. *)
Definition no_start (sched : list Action) : Prop :=
  Forall (fun a => is_start a = false) sched.




(* The regions whose outcome is in the lists: the visited ones, but for
   the one in progress until its line is reached. *)
Definition recorded (w : Worker) : list string :=
  match pc w with
  | LBody B80 _ _ _ | LBody B83 _ _ _ | LBody (B86 _) _ _ _ => visited w
  | LBody _ _ _ _ => removelast (visited w)
  | _ => visited w
  end.

(* Every thread step of the schedule meets the same processor. *)
Definition sees (catalog : list string) (f : string -> Outcome) (a : Action)
    : Prop :=
  match a with
  | Step _ e => construct e = Built catalog /\ process_complete_state e = f
  | _ => True
  end.

(* Where the thread stands in the iteration order [regions]. *)
Definition in_order (f : string -> Outcome) (regions : list string)
    (w : Worker) : Prop :=
  match pc w with
  | L53 | L54 | L55 | L58 | L60 _ | L62 _ | L65 _ | L94 _ => visited w = []
  | L68 rs i => rs = regions /\ visited w = take i regions
  | LBody b rs i name =>
      rs = regions /\ regions !! i = Some name /\
      visited w = take i regions ++ [name] /\
      match b with
      | B79 | B80 => ok f name
      | B82 | B83 | B85 _ | B86 _ => ~ ok f name
      | _ => True
      end
  | L89 | L96 | L97 | Done => visited w `prefix_of` regions
  end.

Definition classified (f : string -> Outcome) (w : Worker) (s : Status)
    : Prop :=
  completed_states s = filter (ok f) (recorded w) /\
  failed_states s = filter (fun x => ~ ok f x) (recorded w).

Definition run_invariant (catalog : list string) (f : string -> Outcome)
    (body : Targets) (w : Worker) (s : Status) : Prop :=
  target_states w = body /\
  match pc w with
  | L60 c | L62 c | L65 c => c = catalog
  | _ => True
  end /\
  in_order f (regions_for body catalog) w /\ classified f w s.

(* A run over three regions: a stop request arrives while the first one
   is being processed; the thread records that region, then sees the flag
   down at the head of the loop. *)
Definition stop_demo_1 : list Action :=
  solo clock0 (Built ["Assam"]) moody 0 10
  ++ [Stop (mk_datetime 2024 3 7 9 1 0)]
  ++ solo clock0 (Built ["Assam"]) moody 10 3.

Definition stop_demo_2 : list Action :=
  solo clock0 (Built ["Assam"]) moody 13 2
  ++ [Poll; Stop (mk_datetime 2024 3 7 9 2 0)]
  ++ solo clock0 (Built ["Assam"]) moody 15 6.


(* A request whose 'states' value is a number, up to the point where the
   task asks for its length. *)
Definition int_request : Config :=
  exec (solo clock0 (Built ["Assam"]) moody 0 5)
    (started (TScalar "int") initial_status).

Definition int_request_worker : Worker :=
  {| target_states := TScalar "int";
     pc := L94 "object of type 'int' has no len()";
     visited := [] |}.

(* A development host whose config.py sets one key, to a string. *)
Definition local_host : Host :=
  {| environ := list_to_map [("MAX_RETRIES", "9")];
     local_config := Some (list_to_map [("MAX_RETRIES", VStr "three")]) |}.

(* A host on Render with one value that is no integer. *)
Definition render_host : Host :=
  {| environ := list_to_map [("RENDER", "true"); ("MAX_RETRIES", "three");
                             ("BACKUP_FREQUENCY", "250")];
     local_config := None |}.

(* A span element with the marker class, as the pattern of strategy 1
   reads it: [a1] between the tag name and the class attribute, a class
   value with [a2] before and [a3] after the marker, [a4] up to the end of
   the tag, and an inner text [local]@[domain]. *)
Definition marker_element (a1 a2 a3 a4 local domain : text) : text :=
  cp "<span" ++ a1 ++ cp "class=" ++ [34%N] ++ a2 ++ cp "ms-2" ++ a3
  ++ [34%N] ++ a4 ++ cp ">" ++ local ++ cp "@" ++ domain ++ cp "</span>".

Definition lt_sign : N := 60.
Definition gt_sign : N := 62.
Definition quote_sign : N := 34.

(* The conditions under which that text is a span element of that form. *)
Definition well_formed_marker (a1 a2 a3 a4 local domain : text) : Prop :=
  (gt_sign ∉ a1) /\ (quote_sign ∉ a2) /\ (quote_sign ∉ a3) /\
  (gt_sign ∉ a4) /\ local <> [] /\ domain <> [] /\
  (lt_sign ∉ local) /\ (lt_sign ∉ domain).

(* An href attribute with a mail link to [local]@[domain]. *)
Definition mailto_target (local domain : text) : text :=
  cp "href=" ++ [34%N] ++ cp "mailto:" ++ local ++ cp "@" ++ domain ++ [34%N].

Definition well_formed_mailto (local domain : text) : Prop :=
  local <> [] /\ domain <> [] /\
  (quote_sign ∉ local) /\ (quote_sign ∉ domain).

Definition all_in (a : Re.Atom) (u : text) : Prop :=
  Forall (fun x => Re.atom_match a x = true) u.

(* [w] has the shape of an e-mail address where it stands, between the
   character [before] and the text [after]: local part, @, host, a dot and
   an ending of two characters or more, with a word boundary on each
   side. *)
Definition email_at (ua : N -> bool) (before : option N) (w after : text)
    : Prop :=
  exists local host tld,
    w = local ++ cp "@" ++ host ++ cp "." ++ tld /\
    local <> [] /\ all_in local_chars local /\
    host <> [] /\ all_in host_chars host /\
    2 <= length tld /\ all_in tld_chars tld /\
    Re.at_boundary ua before (w ++ after) = true /\
    Re.at_boundary ua (last w) after = true.

(* The markup holds a span element with the marker class. *)
Definition contains_marker (html : text) : Prop :=
  exists pre a1 a2 a3 a4 local domain post,
    html = pre ++ marker_element a1 a2 a3 a4 local domain ++ post /\
    well_formed_marker a1 a2 a3 a4 local domain.

(* The markup holds a mail link target. *)
Definition contains_mailto (html : text) : Prop :=
  exists pre local domain post,
    html = pre ++ mailto_target local domain ++ post /\
    well_formed_mailto local domain.

(* The text holds an e-mail-shaped substring. *)
Definition contains_email (ua : N -> bool) (txt : text) : Prop :=
  exists pre w post,
    txt = pre ++ w ++ post /\ email_at ua (Re.prev_after None pre) w post.

(* The markup of the five cases of test_email_extraction (lines 21-84). *)
Definition case_span : text := markup
"
            <div class='school-info'>
                <p class='ng-star-inserted'>
                    <a style='color: #451c78; text-decoration: none;' href='mailto:ampsbhatubasti11@gmail.com'>
                        <svg>...</svg>
                        <span class='ms-2'>ampsbhatubasti11@gmail.com</span>
                    </a>
                </p>
                <p>PIN Code: 123456</p>
            </div>
            ".

Definition case_mailto : text := markup
"
            <div class='school-info'>
                <p class='ng-star-inserted'>
                    <a href='mailto:school.contact@education.gov.in'>Contact Email</a>
                </p>
                <p>PIN Code: 654321</p>
            </div>
            ".

Definition case_plain : text := markup
"
            <div class='school-info'>
                <p>Contact: principal@schoolname.edu.in</p>
                <p>PIN Code: 789012</p>
            </div>
            ".

Definition case_none : text := markup
"
            <div class='school-info'>
                <p>School Name: Test School</p>
                <p>PIN Code: 345678</p>
            </div>
            ".

Definition case_several : text := markup
"
            <div class='school-info'>
                <p class='ng-star-inserted'>
                    <a href='mailto:primary@school.edu'>
                        <span class='ms-2'>primary@school.edu</span>
                    </a>
                </p>
                <p>Secondary: secondary@school.edu</p>
                <p>PIN Code: 567890</p>
            </div>
            ".

(* The harness on one case: extract from the markup and its text. *)
Definition run_case (html : text) : text :=
  extract_email_from_html no_alnum html (text_content no_alnum html).

(* A marker span inside a mail link to another address. *)
Definition two_addresses : text :=
  markup "<a href='mailto:office@school.edu'><span class='ms-2'> head@school.edu </span></a>".

(* The markup of test_regex_patterns (line 169): a marker span and nothing
   around it. *)
Definition bare_span : text :=
  markup "<span class='ms-2'>test@example.com</span>".

(* The keys of the dictionary literals of _load_config and
   _get_fallback_config. *)
Definition config_keys : list string :=
  ["MAX_STATES"; "MAX_DISTRICTS_PER_STATE"; "WAIT_BETWEEN_STATES";
   "WAIT_BETWEEN_DISTRICTS"; "WAIT_AFTER_SEARCH"; "WAIT_FOR_PAGE_LOAD";
   "OUTPUT_DIRECTORY"; "BACKUP_FREQUENCY"; "IMPLICIT_WAIT"; "EXPLICIT_WAIT";
   "PAGE_LOAD_TIMEOUT"; "BASE_URL"; "LOG_LEVEL"; "LOG_FORMAT"; "MAX_RETRIES";
   "RETRY_DELAY"; "HEADLESS"; "WINDOW_SIZE"; "RENDER_DEPLOYMENT"].

(* The fallback configuration but for the two defaults that the config.py
   path gives differently. *)
Definition module_defaults : gmap string Value :=
  <["HEADLESS" := VBool false]>
    (<["RENDER_DEPLOYMENT" := VBool false]>
       RenderConfigHandler._get_fallback_config).

(* The words _get_env_bool reads as True. *)
Definition true_words : list string := ["true"; "1"; "yes"; "on"].

#[local] Instance Value_eq_dec : EqDecision Value.
Proof. solve_decision. Defined.

(* An indicator of Render is set on the host, to a value that is not
   empty. *)
Definition indicated (h : Host) : Prop :=
  exists indicator value,
    indicator ∈ RenderConfigHandler.render_indicators /\
    RenderConfigHandler.getenv h indicator = Some value /\
    value <> EmptyString.

(* A host where the one indicator is set to the empty text. *)
Definition blank_indicator_host : Host :=
  {| environ := list_to_map [("RENDER", EmptyString); ("MAX_RETRIES", "7")];
     local_config := Some (list_to_map [("MAX_RETRIES", VInt 4)]) |}.

(* The JSON text the handler reads on host [h], when there is one. *)
Definition credentials_text (h : Host) (file : FileRead) : option string :=
  if RenderConfigHandler._detect_render_environment h then
    match RenderConfigHandler.getenv h "GOOGLE_CREDENTIALS_JSON" with
    | Some v => if String.eqb v EmptyString then None else Some v
    | None => None
    end
  else
    match file with
    | Content text => Some text
    | _ => None
    end.

(* A reader and a writer of JSON for the examples: null and arrays of
   at most one small number. *)
Definition toy_loads (s : string) : option (option (list Z)) :=
  if String.eqb s "null" then Some None
  else if String.eqb s "[]" then Some (Some [])
  else if String.eqb s "[1]" then Some (Some [1%Z])
  else None.

Definition toy_truth (j : list Z) : bool :=
  match j with [] => false | _ => true end.

Definition toy_dumps (j : list Z) : string :=
  match j with
  | [] => "[]"
  | x :: _ => "[" +:+ String "010"%char ("  " +:+ pretty x)
              +:+ String "010"%char "]"
  end.

Definition empty_credentials_host : Host :=
  {| environ := list_to_map [("RENDER", "true");
                             ("GOOGLE_CREDENTIALS_JSON", "[]")];
     local_config := None |}.

(* The names the file routes deal in. *)
Definition data_file (name : string) : Prop :=
  exists stem, name = stem +:+ ".csv" \/ name = stem +:+ ".xlsx".

Definition demo_dir : Directory :=
  [ mk_entry "schools.csv" Regular 2048%N "2024-03-07T09:05:00";
    mk_entry ".draft.csv" Regular 10%N "2024-03-07T09:06:00";
    mk_entry "app.py" Regular 7000%N "2024-03-01T00:00:00";
    mk_entry "archive.xlsx" (Unreadable "[Errno 21] Is a directory") 4096%N
      "2024-03-02T00:00:00" ].

Definition broken_dir : Directory :=
  demo_dir ++ [ mk_entry "old.csv" (Dangling "[Errno 2] No such file or directory: 'old.csv'") 0%N EmptyString ].

(* The number of names in the two lists together. *)
Definition tallied (s : Status) : nat :=
  length (completed_states s) + length (failed_states s).

(* How the counters of the status record follow the thread: [i] regions
   are behind it at the loop head, the progress index is the one of the
   region entered last, and total_states is the length of the list being
   iterated. *)
Definition tally (w : Worker) (s : Status) : Prop :=
  match pc w with
  | L53 | L54 | L55 | L58 | L60 _ | L94 _ =>
      progress s = 0 /\ tallied s = 0 /\ visited w = []
  | L62 c | L65 c =>
      progress s = 0 /\ tallied s = 0 /\ visited w = [] /\
      total_states s = length (regions_for (target_states w) c)
  | L68 rs i =>
      total_states s = length rs /\ i <= length rs /\
      length (visited w) = i /\ progress s = pred i /\ tallied s = i
  | LBody b rs i _ =>
      total_states s = length rs /\ i < length rs /\
      length (visited w) = S i /\
      progress s = match b with B72 | B73 => pred i | _ => i end /\
      tallied s = match b with B80 | B83 | B86 _ => S i | _ => i end
  | L89 | L96 | L97 | Done =>
      length (visited w) <= total_states s /\
      progress s = pred (length (visited w)) /\
      tallied s = length (visited w)
  end.

(* A step of a run that nobody stops: a poll, or a statement of the
   thread with a processor that can be built. *)
Definition quiet (catalog : list string) (a : Action) : Prop :=
  match a with
  | Step _ e => construct e = Built catalog
  | Poll => True
  | _ => False
  end.

(* The message of lines 89-91 for the lists as they stand. *)
Definition summary_line (s : Status) : string :=
  "🎯 Scraping completed: " +:+ pretty (length (completed_states s))
  +:+ " successful, " +:+ pretty (length (failed_states s)) +:+ " failed".

(* What a run that nobody stops knows of its total, and of the last line
   of its log once the loop is over. *)
Definition closing (catalog : list string) (body : Targets) (w : Worker)
    (s : Status) : Prop :=
  target_states w = body /\
  match pc w with
  | L53 | L54 | L55 | L58 => True
  | L60 c => c = catalog
  | L62 c | L65 c =>
      c = catalog /\ total_states s = length (regions_for body catalog)
  | L68 _ _ | LBody _ _ _ _ | L89 =>
      total_states s = length (regions_for body catalog)
  | L94 _ => False
  | L96 | L97 | Done =>
      total_states s = length (regions_for body catalog) /\
      exists t, last (logs s) = Some (log_entry t (summary_line s))
  end.

(* A 'states' value that selects nothing: the key is absent or null, or
   the array is empty. *)
Definition no_selection (t : Targets) : Prop := t = TNone \/ t = TList [].

(* Two threads at the same point that differ at most in which of these
   values they were given; two processes made of such threads. *)
Definition akin_worker (w w' : Worker) : Prop :=
  pc w = pc w' /\ visited w = visited w' /\
  (target_states w = target_states w' \/
   no_selection (target_states w) /\ no_selection (target_states w')).

Definition akin (c c' : Config) : Prop :=
  status c = status c' /\ Forall2 akin_worker (workers c) (workers c').

Definition at_sign : N := 64.

(* White space occurs only as a U+0020 that no white space follows. *)
Fixpoint single_spaced (w : text) : Prop :=
  match w with
  | [] => True
  | x :: w' =>
      (is_space x = true ->
       x = 32%N /\ match w' with
                   | y :: _ => is_space y = false
                   | [] => True
                   end) /\
      single_spaced w'
  end.

(* ===================================================================== *)
(* Properties                                                             *)
(* ===================================================================== *)

(* --------------------------------------------------------------------- *)
(* The log buffer                                                         *)
(* --------------------------------------------------------------------- *)

Lemma last_n_length {A} k (l : list A) : length (last_n k l) = min k (length l).
Proof. unfold last_n. rewrite length_drop. lia. Qed.

Lemma last_n_short {A} k (l : list A) : length l <= k -> last_n k l = l.
Proof.
  intros H. unfold last_n. replace (length l - k) with 0 by lia. done.
Qed.

Lemma last_n_snoc {A} k (l : list A) x :
  last_n (S k) (last_n (S k) l ++ [x]) = last_n (S k) (l ++ [x]).
Proof.
  unfold last_n. rewrite !length_app, !length_drop. simpl.
  destruct (decide (length l <= S k)) as [Hle|Hgt].
  - replace (length l - S k) with 0 by lia. simpl.
    by replace (length l - 0) with (length l) by lia.
  - rewrite (drop_app_le l [x] (length l + 1 - S k)) by lia.
    rewrite drop_app_le by (rewrite length_drop; lia).
    rewrite drop_drop. f_equal. f_equal. lia.
Qed.

Lemma add_log_logs t msg s :
  logs (add_log t msg s) = last_n 100 (logs s ++ [log_entry t msg]).
Proof.
  unfold add_log. simpl. case_decide; simpl; [done|].
  symmetry. apply last_n_short. lia.
Qed.

Lemma add_log_frame t msg s :
  running (add_log t msg s) = running s /\
  current_state (add_log t msg s) = current_state s /\
  progress (add_log t msg s) = progress s /\
  total_states (add_log t msg s) = total_states s /\
  completed_states (add_log t msg s) = completed_states s /\
  failed_states (add_log t msg s) = failed_states s /\
  start_time (add_log t msg s) = start_time s.
Proof. unfold add_log. simpl. case_decide; done. Qed.

Lemma add_log_bound t msg s : length (logs (add_log t msg s)) <= 100.
Proof. rewrite add_log_logs, last_n_length. lia. Qed.

Lemma last_n_app {A} k (l xs : list A) :
  last_n (S k) (last_n (S k) l ++ xs) = last_n (S k) (l ++ xs).
Proof.
  induction xs as [|x xs IH] using rev_ind.
  - rewrite !app_nil_r. apply last_n_short. rewrite last_n_length. lia.
  - rewrite !app_assoc, <- last_n_snoc, IH, last_n_snoc. done.
Qed.

Lemma add_logs_logs entries : forall s,
  length (logs s) <= 100 ->
  logs (add_logs entries s) = last_n 100 (logs s ++ (entry_of <$> entries)).
Proof.
  induction entries as [|e entries IH]; intros s Hs; simpl.
  - rewrite app_nil_r. symmetry. by apply last_n_short.
  - unfold add_logs in *. simpl. rewrite IH by apply add_log_bound.
    rewrite add_log_logs, last_n_app, <- app_assoc. done.
Qed.

(** C8: the log is a buffer bounded by 100.  Whatever sequence of messages
    is appended to a log of at most 100 entries, the log holds at most 100
    entries afterwards, and what it holds is the last 100 of the old
    entries followed by the new ones: the oldest are the ones dropped. *)
Theorem log_ring_buffer (entries : list (datetime * string)) (s : Status) :
  length (logs s) <= 100 ->
  length (logs (add_logs entries s)) <= 100 /\
  logs (add_logs entries s) = last_n 100 (logs s ++ (entry_of <$> entries)) /\
  (100 <= length (logs s) + length entries ->
   length (logs (add_logs entries s)) = 100).
Proof.
  intros Hs. rewrite add_logs_logs by done.
  rewrite last_n_length, length_app, length_fmap. repeat split; lia.
Qed.

Lemma log_ring_buffer_witness :
  length (logs (add_logs [(t0, "new")] full_log)) <= 100 /\
  logs (add_logs [(t0, "new")] full_log)
  = last_n 100 (logs full_log ++ (entry_of <$> [(t0, "new")])) /\
  (100 <= length (logs full_log) + length [(t0, "new")] ->
   length (logs (add_logs [(t0, "new")] full_log)) = 100).
Proof. apply (log_ring_buffer [(t0, "new")] full_log). vm_compute. lia. Defined.

(* --------------------------------------------------------------------- *)
(* The start and stop routes                                              *)
(* --------------------------------------------------------------------- *)

(** C2: a start request that arrives while the running flag is set (a run
    in the Running state) is answered with the error "Scraper is already
    running" (status 400) and changes nothing: the status record is the
    same in every field and no thread is spawned. *)
Theorem start_while_running_rejected (body : Targets) (c : Config) :
  running (status c) = true ->
  sys_step (Start body) c = (c, RError "Scraper is already running" 400).
Proof. intros H. simpl. unfold start_scraper. by rewrite H. Qed.

Lemma start_while_running_rejected_witness :
  sys_step (Start (TList ["Goa"])) busy
  = (busy, RError "Scraper is already running" 400).
Proof. apply (start_while_running_rejected (TList ["Goa"]) busy). reflexivity. Defined.

(* The claim C4 as it is written fails: a stop request on an idle process
   leaves a line in the log. *)
Lemma stop_when_idle_changes_log :
  running (status idle) = false /\
  logs (status idle) = [] /\
  logs (status (fst (sys_step (Stop t0) idle)))
  = ["[2024-03-07 09:05:00] 🛑 Scraper stop requested"] /\
  status (fst (sys_step (Stop t0) idle)) <> status idle.
Proof. vm_compute. repeat split; discriminate. Qed.

(** C4, amended: a stop request when no run is in progress leaves every
    field of the status record other than the log unchanged and spawns
    nothing; to the log it appends the line of the request, the log keeping
    its last 100 entries.  A second stop request changes no field other
    than the log either. *)
Theorem stop_when_idle (t t' : datetime) (c : Config) :
  running (status c) = false ->
  let c1 := fst (sys_step (Stop t) c) in
  let c2 := fst (sys_step (Stop t') c1) in
  same_but_logs (status c) (status c1) /\
  workers c1 = workers c /\
  logs (status c1)
  = last_n 100 (logs (status c) ++ [log_entry t "🛑 Scraper stop requested"]) /\
  same_but_logs (status c1) (status c2) /\
  workers c2 = workers c1.
Proof.
  intros H. simpl. rewrite add_log_logs. simpl. unfold same_but_logs.
  pose proof (add_log_frame t "🛑 Scraper stop requested"
                (set_running false (status c))) as F1.
  pose proof (add_log_frame t' "🛑 Scraper stop requested"
                (set_running false
                   (add_log t "🛑 Scraper stop requested"
                      (set_running false (status c))))) as F2.
  simpl in *. destruct F1 as (?&?&?&?&?&?&?), F2 as (?&?&?&?&?&?&?).
  repeat split; congruence.
Qed.

Lemma stop_when_idle_witness :
  let c1 := fst (sys_step (Stop t0) idle) in
  let c2 := fst (sys_step (Stop t0) c1) in
  same_but_logs (status idle) (status c1) /\
  workers c1 = workers idle /\
  logs (status c1)
  = last_n 100 (logs (status idle) ++ [log_entry t0 "🛑 Scraper stop requested"]) /\
  same_but_logs (status c1) (status c2) /\
  workers c2 = workers c1.
Proof. apply (stop_when_idle t0 t0 idle). reflexivity. Defined.

(** C10: an accepted start request empties the two lists and the log and
    zeroes progress, total and current region, but leaves start_time as
    the previous run left it; a status poll right after the request shows
    exactly that.  The new thread stands before its first statement; its
    first step still leaves start_time alone, its second step assigns it. *)
Theorem start_leaves_start_time (body : Targets) (c : Config) (e1 e2 : Env) :
  running (status c) = false ->
  let c' := fst (sys_step (Start body) c) in
  let k := length (workers c) in
  completed_states (status c') = [] /\
  failed_states (status c') = [] /\
  logs (status c') = [] /\
  progress (status c') = 0 /\
  total_states (status c') = 0 /\
  current_state (status c') = None /\
  running (status c') = true /\
  start_time (status c') = start_time (status c) /\
  snd (sys_step Poll c') = RStatus (status c') /\
  workers c' !! k = Some {| target_states := body; pc := L53; visited := [] |} /\
  start_time (status (exec [Step k e1] c')) = start_time (status c) /\
  start_time (status (exec [Step k e1; Step k e2] c')) = Some (now e2).
Proof.
  intros H. simpl. unfold start_scraper. rewrite H. simpl.
  rewrite !list_lookup_middle by done. simpl.
  rewrite list_lookup_insert_eq by (rewrite length_app; simpl; lia).
  simpl. repeat split; done.
Qed.

Lemma start_leaves_start_time_witness :
  let c' := fst (sys_step (Start TNone) after_a_run) in
  completed_states (status c') = [] /\
  failed_states (status c') = [] /\
  logs (status c') = [] /\
  progress (status c') = 0 /\
  total_states (status c') = 0 /\
  current_state (status c') = None /\
  running (status c') = true /\
  start_time (status c') = Some t0 /\
  snd (sys_step Poll c') = RStatus (status c') /\
  workers c' !! 1 = Some {| target_states := TNone; pc := L53; visited := [] |} /\
  start_time (status (exec [Step 1 (demo_env 1)] c')) = Some t0 /\
  start_time (status (exec [Step 1 (demo_env 1); Step 1 (demo_env 2)] c'))
  = Some (mk_datetime 2024 3 8 10 0 2).
Proof.
  apply (start_leaves_start_time TNone after_a_run (demo_env 1) (demo_env 2)).
  reflexivity.
Defined.

(* --------------------------------------------------------------------- *)
(* The background task                                                    *)
(* --------------------------------------------------------------------- *)

Lemma add_log_running t msg s : running (add_log t msg s) = running s.
Proof. apply add_log_frame. Qed.

Lemma add_log_current_state t msg s :
  current_state (add_log t msg s) = current_state s.
Proof. apply add_log_frame. Qed.

Lemma add_log_completed t msg s :
  completed_states (add_log t msg s) = completed_states s.
Proof. apply add_log_frame. Qed.

Lemma add_log_failed t msg s :
  failed_states (add_log t msg s) = failed_states s.
Proof. apply add_log_frame. Qed.

Lemma add_log_total t msg s : total_states (add_log t msg s) = total_states s.
Proof. apply add_log_frame. Qed.

Create Rewrite HintDb status.
#[local] Hint Rewrite add_log_running add_log_current_state add_log_completed
  add_log_failed add_log_total : status.

Lemma exec_app sched1 sched2 c :
  exec (sched1 ++ sched2) c = exec sched2 (exec sched1 c).
Proof. revert c. induction sched1 as [|a sched1 IH]; intros c; simpl; auto. Qed.

Lemma solo_app clock ctor f t0 a b :
  solo clock ctor f t0 (a + b)
  = solo clock ctor f t0 a ++ solo clock ctor f (t0 + a) b.
Proof. unfold solo. by rewrite seq_app, fmap_app. Qed.

Opaque add_log.

Ltac run_steps :=
  repeat (cbn [exec sys_step fst snd status workers lookup list_lookup
               worker_step body_step pc goto enter target_states visited
               list_insert insert];
          autorewrite with status;
          cbn [running set_running set_current_state set_progress
               set_total_states set_completed_states set_failed_states
               set_start_time completed_states failed_states current_state]).

(* One visit: from the call of line 77 the three statements that follow
   put the region in exactly one list, chosen by the outcome, and lead
   back to the loop head for the next region. *)
Lemma visit_records (e1 e2 e3 : Env) (w : Worker) (s : Status)
    (regions : list string) (i : nat) (name : string) :
  pc w = LBody B77 regions i name ->
  let c := exec [Step 0 e1; Step 0 e2; Step 0 e3]
             {| status := s; workers := [w] |} in
  (exists w', workers c = [w'] /\ pc w' = L68 regions (S i)
              /\ visited w' = visited w) /\
  running (status c) = running s /\
  match process_complete_state e1 name with
  | Returned true =>
      completed_states (status c) = completed_states s ++ [name] /\
      failed_states (status c) = failed_states s
  | _ =>
      completed_states (status c) = completed_states s /\
      failed_states (status c) = failed_states s ++ [name]
  end.
Proof.
  intros Hpc. destruct w as [tg p vis]. simpl in Hpc. subst p.
  run_steps.
  destruct (process_complete_state e1 name) as [[|]|msg]; run_steps;
    (split; [eexists; split; [reflexivity|]; done|]); done.
Qed.

Lemma exec_cons a sched c : exec (a :: sched) c = exec sched (fst (sys_step a c)).
Proof. reflexivity. Qed.

Lemma sys_step_alone e s w :
  fst (sys_step (Step 0 e) {| status := s; workers := [w] |})
  = {| status := snd (worker_step e w s); workers := [fst (worker_step e w s)] |}.
Proof. simpl. by destruct (worker_step e w s). Qed.

Ltac step :=
  rewrite exec_cons, sys_step_alone;
  cbv beta iota delta [worker_step body_step goto enter pc target_states
                       visited fst snd env_at process_complete_state
                       construct now truthy].

Ltac status_simpl :=
  repeat (progress
            (autorewrite with status;
             cbn [running set_running set_current_state set_progress
                  set_total_states set_completed_states set_failed_states
                  set_start_time completed_states failed_states
                  current_state total_states start_time progress])).

Ltac finish :=
  do 2 eexists; (split; [reflexivity|]);
  cbv beta iota delta [pc visited]; status_simpl.

(* One pass through the loop body, run alone. *)
Lemma solo_visit clock ctor f regions i name t s w :
  pc w = L68 regions i -> regions !! i = Some name -> running s = true ->
  exists s1 w1,
    exec (solo clock ctor f t 7) {| status := s; workers := [w] |}
    = {| status := s1; workers := [w1] |} /\
    pc w1 = L68 regions (S i) /\
    visited w1 = visited w ++ [name] /\
    running s1 = true /\
    completed_states s1 = completed_states s ++ filter (ok f) [name] /\
    failed_states s1 = failed_states s ++ filter (fun x => ~ ok f x) [name].
Proof.
  intros Hpc Hname Hrun. destruct w as [tg p vis]. simpl in Hpc. subst p.
  cbn [solo seq fmap list_fmap].
  step. rewrite Hname, Hrun. do 4 step.
  destruct (f name) as [[|]|msg] eqn:Hf; do 2 step; finish;
    rewrite !filter_cons, !filter_nil; unfold ok;
    repeat case_decide; try congruence; try tauto;
    rewrite ?app_nil_r, ?Hrun; done.
Qed.

(* The end of the loop, run alone: the summary and the finally block. *)
Lemma solo_exit clock ctor f regions i t s w :
  pc w = L68 regions i -> regions !! i = None ->
  exists s1 w1,
    exec (solo clock ctor f t 4) {| status := s; workers := [w] |}
    = {| status := s1; workers := [w1] |} /\
    pc w1 = Done /\ visited w1 = visited w /\
    running s1 = false /\ current_state s1 = None /\
    completed_states s1 = completed_states s /\
    failed_states s1 = failed_states s.
Proof.
  intros Hpc Hnone. destruct w as [tg p vis]. simpl in Hpc. subst p.
  cbn [solo seq fmap list_fmap]. step. rewrite Hnone. do 3 step.
  finish. done.
Qed.

Lemma solo_loop clock ctor f regions : forall m i t s w,
  m = length regions - i -> i <= length regions ->
  pc w = L68 regions i -> running s = true ->
  exists s' w',
    exec (solo clock ctor f t (7 * m + 4)) {| status := s; workers := [w] |}
    = {| status := s'; workers := [w'] |} /\
    pc w' = Done /\
    visited w' = visited w ++ drop i regions /\
    completed_states s' = completed_states s ++ filter (ok f) (drop i regions) /\
    failed_states s'
    = failed_states s ++ filter (fun x => ~ ok f x) (drop i regions) /\
    running s' = false /\ current_state s' = None.
Proof.
  induction m as [|m IH]; intros i t s w Hm Hi Hpc Hrun.
  - assert (regions !! i = None) as Hnone by (apply lookup_ge_None; lia).
    rewrite drop_ge by lia.
    destruct (solo_exit clock ctor f regions i t s w Hpc Hnone)
      as (s1 & w1 & Hex & ? & Hv & ? & ? & Hc & Hf).
    exists s1, w1. change (7 * 0 + 4) with 4. rewrite Hex, Hv, Hc, Hf.
    rewrite filter_nil, !app_nil_r. done.
  - destruct (lookup_lt_is_Some_2 regions i) as [name Hname]; [lia|].
    rewrite (drop_S _ _ _ Hname).
    replace (7 * S m + 4) with (7 + (7 * m + 4)) by lia.
    rewrite solo_app, exec_app.
    destruct (solo_visit clock ctor f regions i name t s w Hpc Hname Hrun)
      as (s1 & w1 & Hex & Hpc1 & Hvis1 & Hrun1 & Hc1 & Hf1).
    rewrite Hex.
    destruct (IH (S i) (t + 7) s1 w1) as
      (s' & w' & Hex' & Hpc' & Hvis' & Hc' & Hf' & Hrun' & Hcur');
      [lia|lia|done|done|].
    exists s', w'. rewrite Hex'. split; [done|]. split; [done|].
    rewrite Hvis', Hvis1, Hc', Hc1, Hf', Hf1.
    rewrite !(filter_cons _ name), !filter_nil.
    repeat case_decide; try tauto; simpl; rewrite <- ?app_assoc; done.
Qed.

(* The statements before the loop, run alone after an accepted request. *)
Lemma solo_prelude clock catalog f body s0 :
  running s0 = false -> sized body ->
  exists s1 w1,
    exec (solo clock (Built catalog) f 0 6) (started body s0)
    = {| status := s1; workers := [w1] |} /\
    pc w1 = L68 (regions_for body catalog) 0 /\ visited w1 = [] /\
    running s1 = true /\
    completed_states s1 = [] /\ failed_states s1 = [].
Proof.
  intros Hidle Hsized. unfold started, start_scraper.
  cbn [status]. rewrite Hidle.
  cbn [fst workers app solo seq fmap list_fmap].
  destruct body as [|[|x l]|ty]; [| | |done]; do 6 step; finish; done.
Qed.

(* A run left alone, from the accepted request to the end of the thread. *)
Lemma solo_run_records (clock : nat -> datetime) (catalog : list string)
    (f : string -> Outcome) (body : Targets) (s0 : Status) :
  running s0 = false -> sized body ->
  let regions := regions_for body catalog in
  let c := exec (solo clock (Built catalog) f 0 (7 * length regions + 10))
             (started body s0) in
  (exists w, workers c = [w] /\ pc w = Done /\ visited w = regions) /\
  completed_states (status c) = filter (ok f) regions /\
  failed_states (status c) = filter (fun x => ~ ok f x) regions /\
  running (status c) = false /\ current_state (status c) = None.
Proof.
  intros Hidle Hsized regions c. subst c.
  replace (7 * length regions + 10) with (6 + (7 * length regions + 4)) by lia.
  rewrite solo_app, exec_app.
  destruct (solo_prelude clock catalog f body s0 Hidle Hsized)
    as (s1 & w1 & Hex & Hpc1 & Hvis1 & Hrun1 & Hc1 & Hf1).
  rewrite Hex.
  destruct (solo_loop clock (Built catalog) f regions (length regions) 0
              (0 + 6) s1 w1) as
    (s' & w' & Hex' & Hpc' & Hvis' & Hc' & Hf' & Hrun' & Hcur');
    [lia|lia|done|done|].
  rewrite Hex'. cbn [status workers].
  rewrite Hvis1, drop_0 in Hvis'. rewrite Hc1, drop_0 in Hc'.
  rewrite Hf1, drop_0 in Hf'.
  split; [by exists w'|done].
Qed.

Lemma take_S_snoc {A} (l : list A) i x :
  l !! i = Some x -> take (S i) l = take i l ++ [x].
Proof. intros H. by apply take_S_r. Qed.

Lemma run_invariant_step catalog f body a c w :
  workers c = [w] -> run_invariant catalog f body w (status c) ->
  is_start a = false -> sees catalog f a ->
  exists w', workers (fst (sys_step a c)) = [w'] /\
             run_invariant catalog f body w' (status (fst (sys_step a c))).
Proof.
  intros Hw (Htg & Hcat & Hord & Hcl) Ha Hsees.
  destruct c as [s ws]. simpl in *. subst ws.
  destruct a as [b0|t| |k e]; [done| | |].
  - exists w. simpl. unfold run_invariant, classified.
    by autorewrite with status.
  - by exists w.
  - destruct k as [|k]; [|by exists w].
    destruct Hsees as [Hctor Hproc].
    rewrite sys_step_alone. eexists. split; [reflexivity|].
    destruct w as [tg p vis]. unfold run_invariant, classified, in_order,
      recorded in *.
    cbn [status pc visited target_states] in *. subst tg.
    destruct Hcl as [Hc Hf].
    destruct p;
      cbv beta iota delta [worker_step body_step goto enter pc target_states
                           visited fst snd].
    all: try (status_simpl; cbn [pc visited target_states]; done).
    + rewrite Hctor. done.
    + destruct (truthy body), body; status_simpl; done.
    + cbn [pc visited target_states]. status_simpl.
      subst. rewrite take_0. done.
    + cbn [pc visited target_states]. status_simpl.
      subst. rewrite take_0. done.
    + destruct Hord as [-> Hvis].
      destruct (regions_for body catalog !! i) as [name|] eqn:Hname;
        [destruct (running s)|]; cbn [pc visited target_states].
      * rewrite removelast_last. subst vis. done.
      * subst vis. repeat split; try done. apply prefix_take.
      * subst vis. repeat split; try done. apply prefix_take.
    + destruct Hord as (-> & Hname & Hvis & Hb).
      destruct b; status_simpl; cbn [pc visited target_states].
      * done.
      * done.
      * done.
      * rewrite Hproc. unfold ok.
        destruct (f state_name) as [[|]|msg] eqn:Hfn;
          cbn [pc visited target_states]; repeat split; try done.
        all: congruence.
      * subst vis. rewrite removelast_last in Hc, Hf.
        rewrite !filter_app, !filter_cons, !filter_nil.
        rewrite decide_True by done. rewrite decide_False by tauto.
        rewrite app_nil_r. rewrite <- Hc, <- Hf. done.
      * rewrite (take_S_snoc _ _ _ Hname). subst vis.
        repeat split; try done.
      * subst vis. rewrite removelast_last in Hc, Hf.
        rewrite !filter_app, !filter_cons, !filter_nil.
        rewrite decide_False by done. rewrite decide_True by done.
        rewrite app_nil_r. rewrite <- Hc, <- Hf. done.
      * rewrite (take_S_snoc _ _ _ Hname). subst vis.
        repeat split; try done.
      * subst vis. rewrite removelast_last in Hc, Hf.
        rewrite !filter_app, !filter_cons, !filter_nil.
        rewrite decide_False by done. rewrite decide_True by done.
        rewrite app_nil_r. rewrite <- Hc, <- Hf. done.
      * rewrite (take_S_snoc _ _ _ Hname). subst vis.
        repeat split; try done.
    + status_simpl. subst vis. repeat split; try done. apply prefix_nil.
Qed.

Lemma run_invariant_exec catalog f body sched : forall c w,
  workers c = [w] -> run_invariant catalog f body w (status c) ->
  no_start sched -> Forall (sees catalog f) sched ->
  exists w', workers (exec sched c) = [w'] /\
             run_invariant catalog f body w' (status (exec sched c)).
Proof.
  induction sched as [|a sched IH]; intros c w Hw Hinv Hns Hsees.
  - by exists w.
  - inversion Hns as [|? ? Ha Hns']; subst.
    inversion Hsees as [|? ? Hsa Hsees']; subst.
    destruct (run_invariant_step catalog f body a c w Hw Hinv Ha Hsa)
      as (w1 & Hw1 & Hinv1).
    by apply (IH _ w1).
Qed.

Lemma in_order_prefix f regions w :
  in_order f regions w -> visited w `prefix_of` regions.
Proof.
  unfold in_order. destruct (pc w).
  all: try (intros ->; apply prefix_nil).
  all: try done.
  - intros [_ ->]. apply prefix_take.
  - intros (_ & Hname & -> & _). rewrite <- (take_S_snoc _ _ _ Hname).
    apply prefix_take.
Qed.

(* Along every schedule of one run, at every point: the regions visited
   so far are a prefix of the iteration order, and the completed and
   failed lists are the recorded ones split by outcome. *)
Lemma run_classifies catalog f body s0 sched :
  running s0 = false -> no_start sched -> Forall (sees catalog f) sched ->
  exists w, workers (exec sched (started body s0)) = [w] /\
    visited w `prefix_of` regions_for body catalog /\
    completed_states (status (exec sched (started body s0)))
    = filter (ok f) (recorded w) /\
    failed_states (status (exec sched (started body s0)))
    = filter (fun x => ~ ok f x) (recorded w).
Proof.
  intros Hidle Hns Hsees.
  destruct (run_invariant_exec catalog f body sched (started body s0)
              {| target_states := body; pc := L53; visited := [] |})
    as (w & Hw & _ & _ & Hord & Hc & Hf); try done.
  - unfold started, start_scraper. simpl. by rewrite Hidle.
  - unfold started, start_scraper. simpl. rewrite Hidle. simpl. done.
  - exists w. split; [done|]. split; [by eapply in_order_prefix|done].
Qed.

(** C3: regions are isolated from each other.  Take a run started by an
    accepted request, with a processor that can be built.  At every point
    of every schedule of thread steps, stop requests and polls, the
    regions visited so far are a prefix of the iteration order, and of the
    regions whose processing is over the completed list holds exactly
    those that returned a true value and the failed list exactly those
    that returned a false value or raised, both in iteration order: a
    failure is recorded and the iteration goes on.  Left alone (no stop
    request), the run visits every region of the iteration order and ends
    normally. *)
Theorem per_region_isolation (catalog : list string) (f : string -> Outcome)
    (body : Targets) (s0 : Status) :
  running s0 = false ->
  let regions := regions_for body catalog in
  (forall sched, no_start sched -> Forall (sees catalog f) sched ->
     let c := exec sched (started body s0) in
     exists w, workers c = [w] /\
       visited w `prefix_of` regions /\
       completed_states (status c) = filter (ok f) (recorded w) /\
       failed_states (status c) = filter (fun x => ~ ok f x) (recorded w)) /\
  (sized body -> forall clock,
     let c := exec (solo clock (Built catalog) f 0 (7 * length regions + 10))
                (started body s0) in
     (exists w, workers c = [w] /\ pc w = Done /\ visited w = regions) /\
     completed_states (status c) = filter (ok f) regions /\
     failed_states (status c) = filter (fun x => ~ ok f x) regions /\
     running (status c) = false /\ current_state (status c) = None).
Proof.
  intros Hidle regions. split.
  - intros sched Hns Hsees. by apply run_classifies.
  - intros Hsized clock. by apply solo_run_records.
Qed.

Lemma per_region_isolation_witness :
  (let c := exec (stop_demo_1 ++ stop_demo_2)
              (started (TList ["Kerala"; "Goa"; "Sikkim"]) initial_status) in
   exists w, workers c = [w] /\
     visited w `prefix_of` ["Kerala"; "Goa"; "Sikkim"] /\
     completed_states (status c) = filter (ok moody) (recorded w) /\
     failed_states (status c) = filter (fun x => ~ ok moody x) (recorded w)) /\
  (let c := exec (solo clock0 (Built ["Assam"]) moody 0 31)
              (started (TList ["Kerala"; "Goa"; "Sikkim"]) initial_status) in
   (exists w, workers c = [w] /\ pc w = Done
              /\ visited w = ["Kerala"; "Goa"; "Sikkim"]) /\
   completed_states (status c) = ["Kerala"; "Sikkim"] /\
   failed_states (status c) = ["Goa"] /\
   running (status c) = false /\ current_state (status c) = None).
Proof.
  destruct (per_region_isolation ["Assam"] moody
              (TList ["Kerala"; "Goa"; "Sikkim"]) initial_status)
    as [Hany Halone]; [reflexivity|].
  split.
  - apply Hany.
    + unfold no_start. repeat constructor.
    + repeat (constructor; [first [exact I | split; reflexivity]|]).
      constructor.
  - apply (Halone I clock0).
Defined.



(* --------------------------------------------------------------------- *)
(* Stopping                                                               *)
(* --------------------------------------------------------------------- *)










Example stop_demo_lists :
  let c2 := exec (stop_demo_1 ++ stop_demo_2)
              (started (TList ["Kerala"; "Goa"; "Sikkim"]) initial_status) in
  completed_states (status c2) = ["Kerala"] /\
  failed_states (status c2) = [] /\
  running (status c2) = false /\
  pc <$> workers c2 = [Done].
Proof. vm_compute. done. Qed.

(* Two things the flag does because it is both the state and the signal.
   A stop request that arrives before the first statement of the thread
   is overwritten by line 53, and the run goes on. *)
Example stop_before_first_statement :
  let c := exec ([Stop t0] ++ solo clock0 (Built ["Assam"]) moody 0 17)
             (started (TList ["Kerala"]) initial_status) in
  completed_states (status c) = ["Kerala"] /\ pc <$> workers c = [Done].
Proof. vm_compute. done. Qed.

(* A start request after a stop request is accepted although the thread
   of the stopped run has not finished. *)
Example start_after_stop :
  let c := exec (stop_demo_1 ++ [Start TNone])
             (started (TList ["Kerala"; "Goa"; "Sikkim"]) initial_status) in
  pc <$> workers c = [L68 ["Kerala"; "Goa"; "Sikkim"] 1; L53] /\
  running (status c) = true.
Proof. vm_compute. done. Qed.

(* --------------------------------------------------------------------- *)
(* Exceptions outside the per-region handler                              *)
(* --------------------------------------------------------------------- *)

(** C7: an exception that escapes the region handling is caught by the
    outer handler.  Both sources of one in the task (the processor cannot
    be built; the request value has no length) lead to the handler of line
    94 with the status untouched.  From the handler, three steps of the
    thread end it normally: the error is the last line of the log, the
    running flag is down, the current region is cleared, and the completed
    and failed lists are what they were when the exception was raised.
    The process itself goes on: the next start request is accepted. *)
Theorem job_exception_contained (c : Config) (k : nat) (w : Worker)
    (msg : string) (e1 e2 e3 : Env) (body : Targets) :
  workers c !! k = Some w ->
  pc w = L94 msg ->
  let c' := exec [Step k e1; Step k e2; Step k e3] c in
  (forall e w0 s m, pc w0 = L58 -> construct e = CtorRaised m ->
                    worker_step e w0 s = (goto (L94 m) w0, s)) /\
  (forall e w0 s catalog ty,
     pc w0 = L60 catalog -> target_states w0 = TScalar ty ->
     exists m, worker_step e w0 s = (goto (L94 m) w0, s)) /\
  workers c' !! k = Some (goto Done w) /\
  last (logs (status c')) = Some (log_entry (now e1) ("❌ Scraper error: " +:+ msg)) /\
  running (status c') = false /\
  current_state (status c') = None /\
  completed_states (status c') = completed_states (status c) /\
  failed_states (status c') = failed_states (status c) /\
  (exists c'', sys_step (Start body) c'
               = (c'', RMessage "Scraper started successfully")).
Proof.
  intros Hk Hpc c'. subst c'.
  assert (k < length (workers c)) as Hlen by (by eapply lookup_lt_Some).
  split; [|split].
  - intros e w0 s m Hp Hc. unfold worker_step. by rewrite Hp, Hc.
  - intros e w0 s catalog ty Hp Ht. unfold worker_step.
    rewrite Hp, Ht. simpl. eauto.
  - destruct w as [tg p vis]. simpl in Hpc. subst p.
    cbn [exec sys_step fst]. rewrite Hk. run_steps.
    rewrite list_lookup_insert_eq by done. run_steps.
    rewrite list_lookup_insert_eq by (by rewrite length_insert). run_steps.
    rewrite list_lookup_insert_eq by (by rewrite !length_insert).
    unfold start_scraper. simpl.
    repeat split; try done; [|eauto].
    rewrite add_log_logs. unfold last_n.
    rewrite drop_app_le by (rewrite length_app; simpl; lia).
    by rewrite last_snoc.
Qed.

Lemma job_exception_contained_witness :
  let c' := exec [Step 0 (demo_env 1); Step 0 (demo_env 2); Step 0 (demo_env 3)]
              int_request in
  (forall e w0 s m, pc w0 = L58 -> construct e = CtorRaised m ->
                    worker_step e w0 s = (goto (L94 m) w0, s)) /\
  (forall e w0 s catalog ty,
     pc w0 = L60 catalog -> target_states w0 = TScalar ty ->
     exists m, worker_step e w0 s = (goto (L94 m) w0, s)) /\
  workers c' !! 0 = Some (goto Done int_request_worker) /\
  last (logs (status c'))
  = Some (log_entry (now (demo_env 1))
            ("❌ Scraper error: " +:+ "object of type 'int' has no len()")) /\
  running (status c') = false /\
  current_state (status c') = None /\
  completed_states (status c') = completed_states (status int_request) /\
  failed_states (status c') = failed_states (status int_request) /\
  (exists c'', sys_step (Start TNone) c'
               = (c'', RMessage "Scraper started successfully")).
Proof.
  apply (job_exception_contained int_request 0 int_request_worker
           "object of type 'int' has no len()"
           (demo_env 1) (demo_env 2) (demo_env 3) TNone).
  - vm_compute. reflexivity.
  - reflexivity.
Defined.

(* --------------------------------------------------------------------- *)
(* Configuration                                                          *)
(* --------------------------------------------------------------------- *)

Import RenderConfigHandler.

(** C9: every configuration key of the core has a default, and loading
    the configuration always yields a value for it.  When the key is
    missing where the handler looks it up (the environment on Render, the
    attributes of the local config module otherwise; nothing at all when
    that module cannot be imported), the value is the default: 3 for
    MAX_RETRIES, 5 for RETRY_DELAY, 100 for BACKUP_FREQUENCY.  The same
    holds on Render when the environment holds a value for an integer key
    that int() refuses. *)
Theorem config_defaults (int : string -> option Z) (h : Host) :
  (forall key d, (key, d) ∈ core_defaults -> absent h key ->
                 _load_config int h !! key = Some d) /\
  (forall key d, (key, d) ∈ core_int_defaults -> unparsable int h key ->
                 _load_config int h !! key = Some d) /\
  (forall key d, (key, d) ∈ core_defaults ->
                 is_Some (_load_config int h !! key)) /\
  core_defaults !! 0 = Some ("MAX_RETRIES", VInt 3) /\
  core_defaults !! 1 = Some ("RETRY_DELAY", VInt 5) /\
  core_defaults !! 2 = Some ("BACKUP_FREQUENCY", VInt 100).
Proof.
  split; [|split; [|split; [|done]]].
  - intros key d Hin Habs. unfold absent, _load_config in *.
    unfold core_defaults in Hin. rewrite !elem_of_cons, elem_of_nil in Hin.
    destruct (_detect_render_environment h);
      [|destruct (local_config h) as [m|]];
      unfold config_from_environment, config_from_module,
        _get_fallback_config, _get_env_int, getenv_default, getattr;
      destruct Hin as [Hin|[Hin|[Hin|[Hin|[Hin|[Hin|[]]]]]]];
      inversion Hin; subst; rewrite ?Habs; done.
  - intros key d Hin (Hrender & value & Hval & Hint).
    unfold _load_config. rewrite Hrender.
    unfold core_int_defaults in Hin. rewrite !elem_of_cons, elem_of_nil in Hin.
    unfold config_from_environment, _get_env_int.
    destruct Hin as [Hin|[Hin|[Hin|[Hin|[Hin|[]]]]]];
      inversion Hin; subst; rewrite ?Hval, ?Hint; done.
  - intros key d Hin. unfold _load_config.
    unfold core_defaults in Hin. rewrite !elem_of_cons, elem_of_nil in Hin.
    destruct (_detect_render_environment h);
      [|destruct (local_config h) as [m|]];
      unfold config_from_environment, config_from_module,
        _get_fallback_config;
      destruct Hin as [Hin|[Hin|[Hin|[Hin|[Hin|[Hin|[]]]]]]];
      inversion Hin; subst; done.
Qed.

Lemma config_defaults_witness :
  _load_config int_ascii render_host !! "RETRY_DELAY" = Some (VInt 5) /\
  _load_config int_ascii render_host !! "MAX_RETRIES" = Some (VInt 3).
Proof.
  destruct (config_defaults int_ascii render_host) as (Habs & Hunp & _).
  split.
  - apply Habs.
    + unfold core_defaults. apply list_elem_of_further, list_elem_of_here.
    + vm_compute. reflexivity.
  - apply Hunp.
    + unfold core_int_defaults. apply list_elem_of_here.
    + split; [vm_compute; reflexivity|].
      exists "three". split; vm_compute; reflexivity.
Defined.

Example config_present_value :
  _load_config int_ascii render_host !! "BACKUP_FREQUENCY" = Some (VInt 250).
Proof. vm_compute. reflexivity. Qed.

(* Off Render the values come from the local config module, which is not
   read through int(): what it sets is taken as it is. *)
Example config_local_value :
  _load_config int_ascii local_host !! "MAX_RETRIES" = Some (VStr "three") /\
  _load_config int_ascii local_host !! "RETRY_DELAY" = Some (VInt 5).
Proof. vm_compute. done. Qed.


(* --------------------------------------------------------------------- *)
(* The matcher against a description of matching without search order     *)
(* --------------------------------------------------------------------- *)

Import Re.

Section Matching.

Variable unicode_alnum : N -> bool.

Lemma repeat_greedy_sound a k : forall rest min c r,
  repeat_greedy a min k c rest = Some r ->
  exists u rest', rest = u ++ rest' /\
    Forall (fun x => atom_match a x = true) u /\ min <= length u /\
    k (advance_all u c) rest' = Some r.
Proof.
  induction rest as [|x rest IH]; intros min c r H; simpl in H.
  - case_decide; [|done]. subst. exists [], []. by repeat split.
  - destruct (atom_match a x) eqn:Hx.
    + destruct (repeat_greedy a (pred min) k (advance x c) rest) as [r'|] eqn:Hr.
      * inversion H; subst. apply IH in Hr as (u & rest' & -> & Hu & Hmin & Hk).
        exists (x :: u), rest'. repeat split; [by constructor|simpl; lia|done].
      * case_decide; [|done]. subst. exists [], (x :: rest). by repeat split.
    + case_decide; [|done]. subst. exists [], (x :: rest). by repeat split.
Qed.

Lemma repeat_greedy_complete a k : forall u min c rest',
  Forall (fun x => atom_match a x = true) u -> min <= length u ->
  is_Some (k (advance_all u c) rest') ->
  is_Some (repeat_greedy a min k c (u ++ rest')).
Proof.
  induction u as [|x u IH]; intros min c rest' Hu Hmin Hk.
  - simpl in *. assert (min = 0) as -> by lia.
    destruct rest' as [|y rest']; simpl; [done|].
    destruct (atom_match a y); [|done].
    by destruct (repeat_greedy a 0 k (advance y c) rest').
  - inversion Hu as [|? ? Hx Hu']; subst. simpl. rewrite Hx.
    destruct (IH (pred min) (advance x c) rest' Hu') as [r Hr];
      [simpl in Hmin; lia|done|].
    rewrite Hr. done.
Qed.

Lemma match_here_sound p : forall c rest c',
  match_here unicode_alnum p c rest = Some c' ->
  exists rest', Matches unicode_alnum p c rest c' rest'.
Proof.
  induction p as [|n p IH]; intros c rest c' H; simpl in H.
  - inversion H; subst. exists rest. constructor.
  - destruct n as [a|min a|g|g|].
    + destruct rest as [|x rest]; [done|].
      destruct (atom_match a x) eqn:Hx; [|done].
      apply IH in H as [rest' H]. exists rest'. by constructor.
    + apply repeat_greedy_sound in H as (u & rest1 & -> & Hu & Hmin & Hk).
      apply IH in Hk as [rest' Hk]. exists rest'. by constructor.
    + apply IH in H as [rest' H]. exists rest'. by constructor.
    + apply IH in H as [rest' H]. exists rest'. by constructor.
    + destruct (at_boundary unicode_alnum (prev c) rest) eqn:Hb; [|done].
      apply IH in H as [rest' H]. exists rest'. by constructor.
Qed.

Lemma match_here_complete p c rest c' rest' :
  Matches unicode_alnum p c rest c' rest' ->
  is_Some (match_here unicode_alnum p c rest).
Proof.
  induction 1 as [c rest|a p c x rest c' rest' Hx _ IH
                  |min a p c u rest c' rest' Hu Hmin _ IH
                  |g p c rest c' rest' _ IH|g p c rest c' rest' _ IH
                  |p c rest c' rest' Hb _ IH]; simpl.
  - done.
  - by rewrite Hx.
  - by apply repeat_greedy_complete.
  - done.
  - done.
  - by rewrite Hb.
Qed.

Lemma prev_after_cons before x skipped :
  prev_after before (x :: skipped) = prev_after (Some x) skipped.
Proof.
  unfold prev_after. destruct skipped as [|y skipped]; [done|].
  rewrite last_cons_cons.
  destruct (last (y :: skipped)) eqn:E; [done|]. by apply last_None in E.
Qed.

Lemma search_from_sound p : forall rest i before m,
  search_from unicode_alnum p i before rest = Some m ->
  exists skipped rest' c,
    rest = skipped ++ rest' /\
    m_start m = i + length skipped /\
    match_here unicode_alnum p
      (mk_cursor (i + length skipped) (prev_after before skipped) [] [])
      rest' = Some c /\
    m_end m = pos c /\ m_groups m = closed c /\
    (forall sk r, rest = sk ++ r -> length sk < length skipped ->
       match_here unicode_alnum p
         (mk_cursor (i + length sk) (prev_after before sk) [] []) r = None).
Proof.
  induction rest as [|x rest IH]; intros i before m H; simpl in H.
  - destruct (match_here unicode_alnum p (mk_cursor i before [] []) [])
      as [c|] eqn:Hc; [|done].
    inversion H; subst. exists [], [], c. simpl.
    rewrite Nat.add_0_r. repeat split; try done. intros; lia.
  - destruct (match_here unicode_alnum p (mk_cursor i before [] []) (x :: rest))
      as [c|] eqn:Hc.
    + inversion H; subst. exists [], (x :: rest), c. simpl.
      rewrite Nat.add_0_r. repeat split; try done. intros; lia.
    + apply IH in H as (skipped & rest' & c & -> & Hs & Hm & He & Hg & Hleft).
      exists (x :: skipped), rest', c. rewrite prev_after_cons. simpl.
      replace (i + S (length skipped)) with (S i + length skipped) by lia.
      repeat split; try done.
      intros sk r Hsk Hlt. destruct sk as [|y sk].
      * simpl in *. subst r. by rewrite Nat.add_0_r.
      * simpl in *. inversion Hsk; subst. rewrite prev_after_cons.
        replace (i + S (length sk)) with (S i + length sk) by lia.
        apply Hleft; [done|lia].
Qed.

Lemma search_from_complete p : forall skipped rest' i before,
  is_Some (match_here unicode_alnum p
             (mk_cursor (i + length skipped) (prev_after before skipped) [] [])
             rest') ->
  is_Some (search_from unicode_alnum p i before (skipped ++ rest')).
Proof.
  induction skipped as [|x skipped IH]; intros rest' i before H.
  - simpl in *. rewrite Nat.add_0_r in H. unfold prev_after in H. simpl in H.
    destruct H as [c Hc]. destruct rest'; simpl; by rewrite Hc.
  - simpl.
    destruct (match_here unicode_alnum p (mk_cursor i before [] [])
                (x :: skipped ++ rest')); [done|].
    apply IH. rewrite prev_after_cons in H. simpl in H.
    by replace (S i + length skipped) with (i + S (length skipped)) by lia.
Qed.

(* A pattern found somewhere in the subject is found by search. *)
Lemma search_complete p skipped rest c c' rest' :
  pos c = length skipped -> prev c = prev_after None skipped ->
  opened c = [] -> closed c = [] ->
  Matches unicode_alnum p c rest c' rest' ->
  is_Some (search unicode_alnum p (skipped ++ rest)).
Proof.
  intros Hp Hv Ho Hc HM. apply (search_from_complete p skipped rest 0 None).
  simpl. destruct c as [cp0 cv co cc]. simpl in *. subst.
  by eapply match_here_complete.
Qed.

(* What search finds is a match of the pattern at a position of the
   subject, and the pattern matches at no position before it. *)
Lemma search_sound p subject m :
  search unicode_alnum p subject = Some m ->
  exists skipped rest rest' c,
    subject = skipped ++ rest /\
    m_start m = length skipped /\ m_end m = pos c /\ m_groups m = closed c /\
    Matches unicode_alnum p (mk_cursor (length skipped) (prev_after None skipped) [] [])
      rest c rest' /\
    (forall sk r c1 c2 r',
       subject = sk ++ r -> length sk < length skipped ->
       pos c1 = length sk -> prev c1 = prev_after None sk ->
       opened c1 = [] -> closed c1 = [] ->
       ~ Matches unicode_alnum p c1 r c2 r').
Proof.
  intros H. apply search_from_sound in H
    as (skipped & rest & c & -> & Hs & Hm & He & Hg & Hleft).
  simpl in *. apply match_here_sound in Hm as [rest' Hm].
  exists skipped, rest, rest', c. repeat split; try done.
  intros sk r c1 c2 r' Hsk Hlt Hp Hv Ho Hc HM.
  apply match_here_complete in HM as [c3 HM].
  destruct c1 as [p1 v1 o1 cl1]. simpl in *. subst.
  rewrite (Hleft sk r Hsk Hlt) in HM. done.
Qed.

Lemma pos_advance_all u : forall c, pos (advance_all u c) = pos c + length u.
Proof. induction u as [|x u IH]; intros c; simpl; [lia|]. rewrite IH. simpl. lia. Qed.

Lemma opened_advance_all u : forall c, opened (advance_all u c) = opened c.
Proof. induction u as [|x u IH]; intros c; simpl; [done|]. by rewrite IH. Qed.

Lemma closed_advance_all u : forall c, closed (advance_all u c) = closed c.
Proof. induction u as [|x u IH]; intros c; simpl; [done|]. by rewrite IH. Qed.

Lemma none_of_single c x :
  atom_match (NoneOf [Single c]) x = true <-> x <> N_of_ascii c.
Proof.
  simpl. rewrite orb_false_r, negb_true_iff, N.eqb_neq. done.
Qed.

Lemma lacks_Forall c u :
  Forall (fun x => atom_match (NoneOf [Single c]) x = true) u
  <-> N_of_ascii c ∉ u.
Proof.
  rewrite Forall_forall. split.
  - intros H Hin. apply H in Hin. by apply none_of_single in Hin.
  - intros H x Hx. apply none_of_single. by intros ->.
Qed.

End Matching.

(* --------------------------------------------------------------------- *)
(* The three patterns and the extraction                                  *)
(* --------------------------------------------------------------------- *)

Lemma nonempty_length {A} (l : list A) : l <> [] -> 1 <= length l.
Proof. destruct l; simpl; [done|lia]. Qed.

Lemma marker_element_matches ua a1 a2 a3 a4 local domain c post :
  well_formed_marker a1 a2 a3 a4 local domain ->
  exists c', Matches ua span_pattern c
               (marker_element a1 a2 a3 a4 local domain ++ post) c' post.
Proof.
  intros (H1 & H2 & H3 & H4 & Hl & Hd & Hl' & Hd').
  unfold marker_element, span_pattern. rewrite <- !app_assoc.
  cbn [cp lit app].
  eexists.
  do 5 (apply M_one; [reflexivity|]).
  apply M_repeat; [by apply (lacks_Forall ">"%char)|simpl; lia|].
  do 7 (apply M_one; [reflexivity|]).
  apply M_repeat; [by apply (lacks_Forall dquote)|simpl; lia|].
  do 4 (apply M_one; [reflexivity|]).
  apply M_repeat; [by apply (lacks_Forall dquote)|simpl; lia|].
  apply M_one; [reflexivity|].
  apply M_repeat; [by apply (lacks_Forall ">"%char)|simpl; lia|].
  apply M_one; [reflexivity|].
  apply M_open.
  apply M_repeat; [by apply (lacks_Forall "<"%char)|by apply nonempty_length|].
  apply M_one; [reflexivity|].
  apply M_repeat; [by apply (lacks_Forall "<"%char)|by apply nonempty_length|].
  apply M_close.
  do 7 (apply M_one; [reflexivity|]).
  apply M_end.
Qed.

Lemma slice_middle (x y z : text) :
  slice (length x) (length x + length y) (x ++ y ++ z) = y.
Proof.
  unfold slice. rewrite drop_app_length.
  replace (length x + length y - length x) with (length y) by lia.
  by rewrite take_app_length.
Qed.

Lemma lit_match c x : atom_match (Lit c) x = true -> x = N_of_ascii c.
Proof. simpl. by intros H%N.eqb_eq. Qed.

Ltac invert_matches :=
  repeat match goal with
         | H : Matches _ (_ :: _) _ _ _ _ |- _ => inversion H; subst; clear H
         | H : Matches _ [] _ _ _ _ |- _ => inversion H; subst; clear H
         | H : atom_match (Lit _) _ = true |- _ => apply lit_match in H; subst
         end.

Lemma group_of_single g a b m subject :
  m_groups m = [(S g, (a, b))] -> group (S g) m subject = slice a b subject.
Proof. unfold group. intros ->. simpl. by rewrite decide_True. Qed.

Lemma start_of_head g p o : start_of g ((g, p) :: o) = p.
Proof. unfold start_of. simpl. by rewrite decide_True. Qed.

Ltac cursor_simpl H :=
  repeat (progress (cbn [closed opened pos advance close_group open_group] in H;
                    rewrite ?closed_advance_all, ?opened_advance_all,
                      ?pos_advance_all, ?start_of_head in H)).

Lemma slice_found (x y z subject : text) a b :
  subject = x ++ y ++ z -> a = length x -> b = length x + length y ->
  slice a b subject = y.
Proof. intros -> -> ->. apply slice_middle. Qed.

Lemma span_search_shape ua html m :
  search ua span_pattern html = Some m ->
  exists pre a1 a2 a3 a4 local domain post,
    html = pre ++ marker_element a1 a2 a3 a4 local domain ++ post /\
    well_formed_marker a1 a2 a3 a4 local domain /\
    group 1 m html = local ++ cp "@" ++ domain.
Proof.
  intros H. apply search_sound in H
    as (pre & rest & post & c & -> & Hs & He & Hg & HM & Hleft).
  unfold span_pattern in HM. cbn [lit app] in HM.
  invert_matches. cursor_simpl Hg.
  match goal with
  | |- context [pre ++ _ :: _ :: _ :: _ :: _ :: ?a1 ++ _ :: _ :: _ :: _ :: _
                :: _ :: _ :: ?a2 ++ _ :: _ :: _ :: _ :: ?a3 ++ _ :: ?a4 ++ _
                :: ?lo ++ _ :: ?dom ++ _] =>
      rename a1 into b1; rename a2 into b2; rename a3 into b3;
      rename a4 into b4; rename lo into local; rename dom into domain
  end.
  exists pre, b1, b2, b3, b4, local, domain, post.
  split; [|split].
  - unfold marker_element. rewrite <- !app_assoc. cbn [cp app]. reflexivity.
  - unfold well_formed_marker, gt_sign, quote_sign, lt_sign.
    repeat match goal with
           | H : Forall _ _ |- _ => apply lacks_Forall in H
           end.
    repeat split; try done.
    all: intros ->; simpl in *; lia.
  - erewrite group_of_single by exact Hg.
    apply (slice_found
             (pre ++ cp "<span" ++ b1 ++ cp "class=" ++ [34%N] ++ b2
              ++ cp "ms-2" ++ b3 ++ [34%N] ++ b4 ++ cp ">")
             (local ++ cp "@" ++ domain) (cp "</span>" ++ post)).
    + rewrite <- !app_assoc. cbn [cp app]. reflexivity.
    + rewrite !length_app. cbn [cp length]. lia.
    + rewrite !length_app. cbn [cp length]. lia.
Qed.

Lemma mailto_target_matches ua local domain c post :
  well_formed_mailto local domain ->
  exists c', Matches ua mailto_pattern c (mailto_target local domain ++ post)
               c' post.
Proof.
  intros (Hl & Hd & Hl' & Hd').
  unfold mailto_target, mailto_pattern. rewrite <- !app_assoc.
  cbn [cp lit app].
  eexists.
  do 13 (apply M_one; [reflexivity|]).
  apply M_open.
  apply M_repeat; [by apply (lacks_Forall dquote)|by apply nonempty_length|].
  apply M_one; [reflexivity|].
  apply M_repeat; [by apply (lacks_Forall dquote)|by apply nonempty_length|].
  apply M_close.
  apply M_one; [reflexivity|].
  apply M_end.
Qed.

Lemma mailto_search_shape ua html m :
  search ua mailto_pattern html = Some m ->
  exists pre local domain post,
    html = pre ++ mailto_target local domain ++ post /\
    well_formed_mailto local domain /\
    group 1 m html = local ++ cp "@" ++ domain.
Proof.
  intros H. apply search_sound in H
    as (pre & rest & post & c & -> & Hs & He & Hg & HM & Hleft).
  unfold mailto_pattern in HM. cbn [lit app] in HM.
  invert_matches. cursor_simpl Hg.
  match goal with
  | |- context [pre ++ _ :: _ :: _ :: _ :: _ :: _ :: _ :: _ :: _ :: _ :: _
                :: _ :: _ :: ?lo ++ _ :: ?dom ++ _] =>
      rename lo into local; rename dom into domain
  end.
  exists pre, local, domain, post.
  split; [|split].
  - unfold mailto_target. rewrite <- !app_assoc. cbn [cp app]. reflexivity.
  - unfold well_formed_mailto, quote_sign.
    repeat match goal with
           | H : Forall _ _ |- _ => apply lacks_Forall in H
           end.
    repeat split; try done.
    all: intros ->; simpl in *; lia.
  - erewrite group_of_single by exact Hg.
    apply (slice_found (pre ++ cp "href=" ++ [34%N] ++ cp "mailto:")
             (local ++ cp "@" ++ domain) ([34%N] ++ post)).
    + rewrite <- !app_assoc. cbn [cp app]. reflexivity.
    + rewrite !length_app. cbn [cp length]. lia.
    + rewrite !length_app. cbn [cp length]. lia.
Qed.

Lemma email_pattern_unfold :
  email_pattern
  = [Boundary; Repeat 1 local_chars; One (Lit "@"%char); Repeat 1 host_chars;
     One (Lit "."%char); Repeat 2 tld_chars; Boundary].
Proof. reflexivity. Qed.

Lemma prev_advance_all u : forall c,
  prev (advance_all u c) = prev_after (prev c) u.
Proof.
  induction u as [|x u IH]; intros c; [done|].
  simpl. by rewrite IH, prev_after_cons.
Qed.

Lemma prev_after_app before u v :
  prev_after (prev_after before u) v = prev_after before (u ++ v).
Proof.
  unfold prev_after. destruct v as [|y v] using rev_ind.
  - by rewrite app_nil_r.
  - by rewrite app_assoc, !last_snoc.
Qed.

Lemma prev_after_last before x w :
  prev_after before (x :: w) = last (x :: w).
Proof.
  unfold prev_after. destruct (last (x :: w)) eqn:E; [done|].
  by apply last_None in E.
Qed.

Lemma last_skip {A} (u : list A) x v : last (u ++ x :: v) = last (x :: v).
Proof.
  rewrite last_app. destruct (last (x :: v)) eqn:E; [done|].
  by apply last_None in E.
Qed.

Lemma email_matches ua c w after :
  email_at ua (prev c) w after ->
  exists c', Matches ua email_pattern c (w ++ after) c' after /\
             pos c' = pos c + length w.
Proof.
  intros (local & host & tld & -> & Hl & Hlc & Hh & Hhc & Ht & Htc & Hb1 & Hb2).
  rewrite email_pattern_unfold. revert Hb1 Hb2.
  rewrite <- !app_assoc. cbn [cp app]. intros Hb1 Hb2.
  eexists. split.
  - apply M_boundary; [done|].
    apply M_repeat; [done|by apply nonempty_length|].
    apply M_one; [reflexivity|].
    apply M_repeat; [done|by apply nonempty_length|].
    apply M_one; [reflexivity|].
    apply M_repeat; [done|done|].
    apply M_boundary; [|apply M_end].
    rewrite prev_advance_all. cbn [prev advance].
    destruct tld as [|t1 tld]; [simpl in Ht; lia|].
    rewrite prev_after_last.
    by rewrite last_skip, app_comm_cons, last_skip, last_cons_cons in Hb2.
  - repeat (progress (cbn [pos advance]; rewrite ?pos_advance_all)).
    repeat (progress (cbn [length]; rewrite ?length_app)). lia.
Qed.

Lemma email_search_shape ua txt m :
  search ua email_pattern txt = Some m ->
  exists pre w post,
    txt = pre ++ w ++ post /\
    email_at ua (prev_after None pre) w post /\
    group 0 m txt = w /\
    (forall pre' w' post',
       txt = pre' ++ w' ++ post' ->
       email_at ua (prev_after None pre') w' post' ->
       length pre <= length pre').
Proof.
  intros H. apply search_sound in H
    as (pre & rest & post & c & -> & Hs & He & Hg & HM & Hleft).
  rewrite email_pattern_unfold in HM.
  invert_matches. cursor_simpl He.
  match goal with
  | |- context [pre ++ ?lo ++ _ :: ?ho ++ _ :: ?tl ++ post] =>
      rename lo into local; rename ho into host; rename tl into tld
  end.
  exists pre, (local ++ cp "@" ++ host ++ cp "." ++ tld), post.
  split; [|split; [|split]]; cycle 3.
  { intros pre' w' post' Heq Hat.
    destruct (decide (length pre <= length pre')) as [|Hlt]; [done|].
    destruct (email_matches ua (mk_cursor (length pre') (prev_after None pre')
                                  [] []) w' post' Hat) as (c' & HM' & _).
    exfalso. eapply (Hleft pre' (w' ++ post')); [exact Heq|lia|..|exact HM'];
      done. }
  - rewrite <- !app_assoc. cbn [cp app]. reflexivity.
  - exists local, host, tld. unfold all_in.
    repeat match goal with
           | H : at_boundary _ _ _ = true |- _ => revert H
           end.
    cbn [prev]. rewrite prev_advance_all. cbn [prev advance].
    intros Hb1 Hb2.
    repeat split; try done.
    + intros ->; simpl in *; lia.
    + intros ->; simpl in *; lia.
    + rewrite <- !app_assoc. cbn [cp app]. done.
    + cbn [cp app]. destruct tld as [|t1 tld]; [simpl in *; lia|].
      rewrite prev_after_last in Hb2.
      by rewrite last_skip, app_comm_cons, last_skip, last_cons_cons.
  - unfold group. rewrite Hs, He.
    apply (slice_found pre (local ++ cp "@" ++ host ++ cp "." ++ tld) post).
    + rewrite <- !app_assoc. cbn [cp app]. reflexivity.
    + done.
    + repeat (progress (cbn [cp length]; rewrite ?length_app)). lia.
Qed.

Lemma lstrip_id x w : is_space x = false -> lstrip (x :: w) = x :: w.
Proof. intros H. simpl. by rewrite H. Qed.

Lemma strip_id (w : text) x y :
  head w = Some x -> last w = Some y ->
  is_space x = false -> is_space y = false -> strip w = w.
Proof.
  intros Hh Hl Hx Hy. destruct w as [|x' w]; [done|].
  simpl in Hh. inversion Hh; subst. unfold strip, rstrip.
  rewrite lstrip_id by done.
  destruct (reverse (x :: w)) as [|y' r] eqn:Hr.
  - apply (f_equal reverse) in Hr. rewrite reverse_involutive in Hr. done.
  - assert (y' = y) as ->.
    { apply (f_equal reverse) in Hr. rewrite reverse_involutive in Hr.
      rewrite Hr, reverse_cons, last_snoc in Hl. by inversion Hl. }
    rewrite lstrip_id by done. rewrite <- Hr. apply reverse_involutive.
Qed.

Lemma space_cases x :
  is_space x = true ->
  x ∈ [9; 10; 11; 12; 13; 28; 29; 30; 31; 32; 133; 160; 5760;
       8192; 8193; 8194; 8195; 8196; 8197; 8198; 8199; 8200;
       8201; 8202; 8232; 8233; 8239; 8287; 12288]%N.
Proof. unfold is_space. apply bool_decide_eq_true. Qed.

Lemma local_chars_no_space x :
  atom_match local_chars x = true -> is_space x = false.
Proof.
  intros H. destruct (is_space x) eqn:E; [|done].
  apply space_cases in E. rewrite !elem_of_cons, elem_of_nil in E.
  repeat (destruct E as [->|E]; [vm_compute in H; discriminate|]). done.
Qed.

Lemma tld_chars_no_space x :
  atom_match tld_chars x = true -> is_space x = false.
Proof.
  intros H. destruct (is_space x) eqn:E; [|done].
  apply space_cases in E. rewrite !elem_of_cons, elem_of_nil in E.
  repeat (destruct E as [->|E]; [vm_compute in H; discriminate|]). done.
Qed.

(* Trimming leaves an e-mail-shaped text as it is. *)
Lemma email_at_strip ua before w after :
  email_at ua before w after -> strip w = w.
Proof.
  intros (local & host & tld & -> & Hl & Hlc & Hh & Hhc & Ht & Htc & _).
  destruct local as [|x local]; [done|].
  destruct (last tld) as [y|] eqn:Hy;
    [|apply last_None in Hy; subst; simpl in Ht; lia].
  apply (strip_id _ x y).
  - done.
  - cbn [cp app]. destruct tld as [|t1 tld]; [done|].
    by rewrite app_comm_cons, last_skip, app_comm_cons, last_skip,
      last_cons_cons.
  - apply local_chars_no_space. by inversion Hlc.
  - apply tld_chars_no_space. unfold all_in in Htc.
    rewrite Forall_forall in Htc. apply Htc.
    apply list_elem_of_lookup. exists (pred (length tld)).
    by rewrite <- last_lookup.
Qed.

Lemma search_span_iff ua html :
  is_Some (search ua span_pattern html) <-> contains_marker html.
Proof.
  split.
  - intros [m Hm]. apply span_search_shape in Hm
      as (pre & a1 & a2 & a3 & a4 & local & domain & post & He & Hwf & _).
    exists pre, a1, a2, a3, a4, local, domain, post. by split.
  - intros (pre & a1 & a2 & a3 & a4 & local & domain & post & -> & Hwf).
    destruct (marker_element_matches ua a1 a2 a3 a4 local domain
                (mk_cursor (length pre) (prev_after None pre) [] []) post Hwf)
      as [c' HM].
    by apply (search_complete ua span_pattern pre _
                (mk_cursor (length pre) (prev_after None pre) [] []) c' post).
Qed.

Lemma search_mailto_iff ua html :
  is_Some (search ua mailto_pattern html) <-> contains_mailto html.
Proof.
  split.
  - intros [m Hm]. apply mailto_search_shape in Hm
      as (pre & local & domain & post & He & Hwf & _).
    exists pre, local, domain, post. by split.
  - intros (pre & local & domain & post & -> & Hwf).
    destruct (mailto_target_matches ua local domain
                (mk_cursor (length pre) (prev_after None pre) [] []) post Hwf)
      as [c' HM].
    by apply (search_complete ua mailto_pattern pre _
                (mk_cursor (length pre) (prev_after None pre) [] []) c' post).
Qed.

Lemma search_email_iff ua txt :
  is_Some (search ua email_pattern txt) <-> contains_email ua txt.
Proof.
  split.
  - intros [m Hm]. apply email_search_shape in Hm
      as (pre & w & post & He & Hat & _).
    exists pre, w, post. by split.
  - intros (pre & w & post & -> & Hat).
    destruct (email_matches ua
                (mk_cursor (length pre) (prev_after None pre) [] []) w post Hat)
      as (c' & HM & _).
    by apply (search_complete ua email_pattern pre _
                (mk_cursor (length pre) (prev_after None pre) [] []) c' post).
Qed.

Lemma not_Some_None {A} (o : option A) : ~ is_Some o -> o = None.
Proof. destruct o; [intros []; eauto|done]. Qed.

(** C1: the three strategies apply in a fixed order.  When the markup
    holds a span element with the marker class, the result is the inner
    text of such an element, trimmed, whether the markup also holds a mail
    link or not.  When it holds none but holds a mail link target, the
    result is the address of such a target, trimmed.  When the markup
    holds neither and the flattened text holds an e-mail-shaped substring,
    the result is the first such substring.  When none of the three is
    there, the result is "N/A". *)
Theorem email_strategy_precedence (ua : N -> bool) (html txt : text) :
  (contains_marker html ->
   exists pre a1 a2 a3 a4 local domain post,
     html = pre ++ marker_element a1 a2 a3 a4 local domain ++ post /\
     well_formed_marker a1 a2 a3 a4 local domain /\
     extract_email_from_html ua html txt = strip (local ++ cp "@" ++ domain)) /\
  (~ contains_marker html -> contains_mailto html ->
   exists pre local domain post,
     html = pre ++ mailto_target local domain ++ post /\
     well_formed_mailto local domain /\
     extract_email_from_html ua html txt = strip (local ++ cp "@" ++ domain)) /\
  (~ contains_marker html -> ~ contains_mailto html -> contains_email ua txt ->
   exists pre w post,
     txt = pre ++ w ++ post /\
     email_at ua (prev_after None pre) w post /\
     (forall pre' w' post',
        txt = pre' ++ w' ++ post' ->
        email_at ua (prev_after None pre') w' post' ->
        length pre <= length pre') /\
     extract_email_from_html ua html txt = w) /\
  (~ contains_marker html -> ~ contains_mailto html -> ~ contains_email ua txt ->
   extract_email_from_html ua html txt = sentinel).
Proof.
  unfold extract_email_from_html.
  rewrite <- search_span_iff, <- search_mailto_iff, <- search_email_iff.
  repeat split.
  - intros [m Hm]. rewrite Hm.
    destruct (span_search_shape ua html m Hm)
      as (pre & a1 & a2 & a3 & a4 & local & domain & post & ? & ? & Hg).
    exists pre, a1, a2, a3, a4, local, domain, post. by rewrite Hg.
  - intros H1%not_Some_None [m Hm]. rewrite H1, Hm.
    destruct (mailto_search_shape ua html m Hm)
      as (pre & local & domain & post & ? & ? & Hg).
    exists pre, local, domain, post. by rewrite Hg.
  - intros H1%not_Some_None H2%not_Some_None [m Hm]. rewrite H1, H2, Hm.
    destruct (email_search_shape ua txt m Hm)
      as (pre & w & post & ? & Hat & Hg & Hfirst).
    exists pre, w, post. rewrite Hg.
    by rewrite (email_at_strip _ _ _ _ Hat).
  - intros H1%not_Some_None H2%not_Some_None H3%not_Some_None.
    by rewrite H1, H2, H3.
Qed.

(** C6, amended: strategy 1 looks at the span element alone.  For every
    markup that holds a span element with the marker class and an inner
    text with an @ between two non-empty runs without '<', whatever stands
    before and after the element (an enclosing mail link or none),
    strategy 1 produces a value and the extraction returns it. *)
Theorem marker_span_needs_no_anchor (ua : N -> bool)
    (pre post a1 a2 a3 a4 local domain txt : text) :
  well_formed_marker a1 a2 a3 a4 local domain ->
  let html := pre ++ marker_element a1 a2 a3 a4 local domain ++ post in
  exists v, strategy1 ua html = Some v /\
            extract_email_from_html ua html txt = v.
Proof.
  intros Hwf html.
  assert (contains_marker html) as Hc
    by (by exists pre, a1, a2, a3, a4, local, domain, post).
  apply (search_span_iff ua) in Hc as [m Hm].
  unfold strategy1, extract_email_from_html. rewrite Hm. simpl. eauto.
Qed.

(* The cases of the repository's own test, with the values it expects. *)
Example harness_cases :
  run_case case_span = cp "ampsbhatubasti11@gmail.com" /\
  run_case case_mailto = cp "school.contact@education.gov.in" /\
  run_case case_plain = cp "principal@schoolname.edu.in" /\
  run_case case_none = cp "N/A" /\
  run_case case_several = cp "primary@school.edu".
Proof. vm_compute. done. Qed.

Example harness_text :
  text_content no_alnum case_plain
  = cp "Contact: principal@schoolname.edu.in PIN Code: 789012".
Proof. vm_compute. done. Qed.

Lemma absent_by_test (x : N) (l : text) :
  forallb (fun y => negb (N.eqb x y)) l = true -> x ∉ l.
Proof.
  rewrite forallb_forall. intros H Hin. apply list_elem_of_In, H in Hin.
  by rewrite N.eqb_refl in Hin.
Qed.

Lemma email_strategy_precedence_witness :
  exists pre a1 a2 a3 a4 local domain post,
    two_addresses = pre ++ marker_element a1 a2 a3 a4 local domain ++ post /\
    well_formed_marker a1 a2 a3 a4 local domain /\
    extract_email_from_html no_alnum two_addresses (cp "head@school.edu")
    = strip (local ++ cp "@" ++ domain).
Proof.
  apply (email_strategy_precedence no_alnum two_addresses (cp "head@school.edu")).
  exists (markup "<a href='mailto:office@school.edu'>"), (cp " "), [], [], [],
    (cp " head"), (cp "school.edu "), (cp "</a>").
  split; [reflexivity|].
  unfold well_formed_marker. repeat split; try discriminate.
  all: apply absent_by_test; reflexivity.
Defined.

Example two_addresses_result :
  extract_email_from_html no_alnum two_addresses (cp "head@school.edu")
  = cp "head@school.edu".
Proof. vm_compute. done. Qed.

(* The claim C6 as it is written fails: the markup holds no anchor at all,
   and strategy 1 gives the inner text of the span. *)
Lemma bare_span_matches :
  search no_alnum (lit "<a") bare_span = None /\
  search no_alnum (lit "mailto:") bare_span = None /\
  strategy1 no_alnum bare_span = Some (cp "test@example.com") /\
  extract_email_from_html no_alnum bare_span (cp "no address in the text")
  = cp "test@example.com".
Proof. vm_compute. done. Qed.

Lemma marker_span_needs_no_anchor_witness :
  exists v, strategy1 no_alnum
              ([] ++ marker_element (cp " ") [] [] [] (cp "test")
                       (cp "example.com") ++ [])
            = Some v /\
            extract_email_from_html no_alnum
              ([] ++ marker_element (cp " ") [] [] [] (cp "test")
                       (cp "example.com") ++ [])
              (cp "no address in the text")
            = v.
Proof.
  apply (marker_span_needs_no_anchor no_alnum [] [] (cp " ") [] [] []
           (cp "test") (cp "example.com") (cp "no address in the text")).
  unfold well_formed_marker. repeat split; try discriminate.
  all: apply absent_by_test; reflexivity.
Defined.

(* ===================================================================== *)
(* Further properties: the configuration as a whole, the credentials,     *)
(* the file routes, the counters of a run, the value of the extraction    *)
(* and the e-mail check                                                   *)
(* ===================================================================== *)

(* --------------------------------------------------------------------- *)
(* The configuration as a whole                                           *)
(* --------------------------------------------------------------------- *)

Lemma load_config_dom int h :
  dom (_load_config int h) = list_to_set config_keys.
Proof.
  unfold _load_config.
  destruct (_detect_render_environment h); [|destruct (local_config h)];
    unfold config_from_environment, config_from_module, _get_fallback_config;
    rewrite dom_list_to_map_L; reflexivity.
Qed.

(** X1: the configuration has the same nineteen keys on every host, whatever
    the environment and config.py hold.  So get_config returns the
    caller's default for a key outside the nineteen, and never for one of
    them: for such a key the default is ignored (MAX_STATES, when nothing
    sets it, reads None, not the default). *)
Theorem config_keys_on_every_host (int : string -> option Z) (h : Host) :
  dom (_load_config int h) = list_to_set config_keys /\
  forall key d d',
    (key ∈ config_keys -> get_config int h key d = get_config int h key d') /\
    (key ∉ config_keys -> get_config int h key d = d).
Proof.
  split; [apply load_config_dom|].
  intros key d d'. unfold get_config.
  pose proof (load_config_dom int h) as Hdom.
  split; intros Hk.
  - assert (key ∈ dom (_load_config int h)) as Hin
      by (rewrite Hdom; by apply elem_of_list_to_set).
    apply elem_of_dom in Hin as [v ->]. reflexivity.
  - assert (key ∉ dom (_load_config int h)) as Hin
      by (rewrite Hdom; by rewrite elem_of_list_to_set).
    apply not_elem_of_dom in Hin. by rewrite Hin.
Qed.

Ltac key_in := apply list_elem_of_In; cbn; tauto.

Lemma config_keys_on_every_host_witness :
  get_config int_ascii render_host "MAX_STATES" (VInt 7) = VNone /\
  get_config int_ascii render_host "PORT" (VInt 5000) = VInt 5000.
Proof.
  destruct (config_keys_on_every_host int_ascii render_host) as [_ H].
  split.
  - destruct (H "MAX_STATES" (VInt 7) VNone) as [Hin _].
    rewrite Hin; [vm_compute; reflexivity|key_in].
  - destruct (H "PORT" (VInt 5000) VNone) as [_ Hout].
    apply Hout. unfold config_keys. intros Hk.
    apply list_elem_of_In in Hk. cbn in Hk.
    repeat (destruct Hk as [Hk|Hk]; [discriminate|]). done.
Defined.

(** X2: the three paths of _load_config agree on the defaults but for two
    keys.  When none of the nineteen keys is set where the host looks
    them up, the configuration is the fallback configuration on Render
    and when config.py cannot be imported; with a config.py that sets
    none of them it is the fallback configuration with HEADLESS False and
    RENDER_DEPLOYMENT False. *)
Theorem defaults_of_the_three_paths (int : string -> option Z) (h : Host) :
  (forall key, key ∈ config_keys -> absent h key) ->
  _load_config int h =
    if _detect_render_environment h then _get_fallback_config
    else match local_config h with
         | Some _ => module_defaults
         | None => _get_fallback_config
         end.
Proof.
  intros Habs. unfold _load_config.
  destruct (_detect_render_environment h) eqn:Hd.
  - assert (forall key, key ∈ config_keys -> getenv h key = None) as Hnone.
    { intros key Hk. specialize (Habs key Hk). unfold absent in Habs.
      by rewrite Hd in Habs. }
    unfold config_from_environment, _get_env_int, _get_env_bool, getenv_default.
    rewrite !Hnone by key_in. reflexivity.
  - destruct (local_config h) as [m|] eqn:Hm; [|reflexivity].
    assert (forall key, key ∈ config_keys -> m !! key = None) as Hnone.
    { intros key Hk. specialize (Habs key Hk). unfold absent in Habs.
      by rewrite Hd, Hm in Habs. }
    unfold config_from_module, getattr.
    rewrite !Hnone by key_in.
    apply (bool_decide_eq_true_1 _). vm_compute. reflexivity.
Qed.

Lemma defaults_of_the_three_paths_witness :
  _load_config int_ascii {| environ := ∅; local_config := Some ∅ |}
  = module_defaults /\
  _load_config int_ascii
    {| environ := list_to_map [("RENDER_SERVICE_ID", "srv-1")];
       local_config := Some (list_to_map [("HEADLESS", VBool false)]) |}
  = _get_fallback_config.
Proof.
  split.
  - etrans;
      [apply (defaults_of_the_three_paths int_ascii
                {| environ := ∅; local_config := Some ∅ |})|reflexivity].
    intros key _. vm_compute. reflexivity.
  - etrans;
      [apply (defaults_of_the_three_paths int_ascii
             {| environ := list_to_map [("RENDER_SERVICE_ID", "srv-1")];
                local_config :=
                  Some (list_to_map [("HEADLESS", VBool false)]) |})
      |reflexivity].
    intros key Hk. apply list_elem_of_In in Hk. cbn in Hk.
    repeat (destruct Hk as [<-|Hk]; [vm_compute; reflexivity|]). done.
Defined.

Lemma detect_indicated h :
  _detect_render_environment h = true <-> indicated h.
Proof.
  unfold _detect_render_environment, indicated.
  rewrite existsb_exists. split.
  - intros (i & Hin & Hv). apply list_elem_of_In in Hin.
    destruct (getenv h i) as [v|] eqn:Hg; [|done].
    exists i, v. repeat split; try done.
    intros ->. done.
  - intros (i & v & Hin & Hg & Hv). exists i.
    split; [by apply list_elem_of_In|]. rewrite Hg.
    apply negb_true_iff, String.eqb_neq. done.
Qed.

(** X3: one source at a time.  When an indicator of Render is set to a value
    that is not empty, the configuration is read from the environment and
    config.py plays no part.  Otherwise (an indicator set to the empty
    text counts as not set) it is read from config.py, or is the fallback
    configuration, and no variable of the environment plays a part. *)
Theorem one_source_at_a_time (int : string -> option Z) (h : Host) :
  (indicated h ->
   forall m, _load_config int {| environ := environ h; local_config := m |}
             = _load_config int h) /\
  (~ indicated h ->
   forall env, ~ indicated {| environ := env; local_config := local_config h |} ->
     _load_config int {| environ := env; local_config := local_config h |}
     = _load_config int h).
Proof.
  split.
  - intros Hi m. apply detect_indicated in Hi.
    unfold _load_config.
    change (_detect_render_environment
              {| environ := environ h; local_config := m |})
      with (_detect_render_environment h).
    rewrite Hi. reflexivity.
  - intros Hn env Hn'. unfold _load_config.
    destruct (_detect_render_environment h) eqn:Hd;
      [by apply detect_indicated in Hd|].
    destruct (_detect_render_environment
                {| environ := env; local_config := local_config h |}) eqn:Hd';
      [by apply detect_indicated in Hd'|].
    reflexivity.
Qed.

Lemma one_source_at_a_time_witness :
  _load_config int_ascii
    {| environ := ∅; local_config := local_config blank_indicator_host |}
  = _load_config int_ascii blank_indicator_host.
Proof.
  assert (forall env, _detect_render_environment
            {| environ := env;
               local_config := local_config blank_indicator_host |} = false ->
          ~ indicated {| environ := env;
                         local_config := local_config blank_indicator_host |})
    as Hno.
  { intros env Hd Hi. apply detect_indicated in Hi. congruence. }
  destruct (one_source_at_a_time int_ascii blank_indicator_host) as [_ H].
  apply H.
  - intros Hi. apply detect_indicated in Hi. vm_compute in Hi. discriminate.
  - apply Hno. vm_compute. reflexivity.
Defined.

(* --------------------------------------------------------------------- *)
(* The health route                                                       *)
(* --------------------------------------------------------------------- *)

(** X4: what the health route reports.  On Render, render_deployment is True
    and headless is a boolean that is False exactly when the variable
    HEADLESS is set to a text that, in lower case, is none of true, 1,
    yes, on (the empty text among them).  Off Render without a config.py,
    the fallback configuration makes the route report render_deployment
    True and headless True as well. *)
Theorem health_check_flags (int : string -> option Z) (h : Host)
    (now : datetime) :
  (_detect_render_environment h = true ->
   health_render_deployment (health_check int h now) = VBool true /\
   exists b, health_headless (health_check int h now) = VBool b /\
     (b = false <->
      exists v, getenv h "HEADLESS" = Some v /\ lower v ∉ true_words)) /\
  (_detect_render_environment h = false -> local_config h = None ->
   health_render_deployment (health_check int h now) = VBool true /\
   health_headless (health_check int h now) = VBool true).
Proof.
  unfold health_check, get_config, _load_config.
  cbn [health_render_deployment health_headless].
  split.
  - intros ->. split; [reflexivity|].
    unfold config_from_environment.
    change (default VNone (Some (_get_env_bool h "HEADLESS" (VBool true))))
      with (_get_env_bool h "HEADLESS" (VBool true)).
    unfold _get_env_bool. destruct (getenv h "HEADLESS") as [v|].
    + eexists. split; [reflexivity|]. split.
      * intros Hb. exists v. split; [done|].
        by apply bool_decide_eq_false in Hb.
      * intros (v' & Hv & Hno). inversion Hv; subst.
        by apply bool_decide_eq_false.
    + exists true. split; [reflexivity|]. split; [done|].
      by intros (v & Hv & _).
  - intros -> ->. split; reflexivity.
Qed.

Lemma health_check_flags_witness :
  health_headless
    (health_check int_ascii
       {| environ := list_to_map [("RENDER", "true"); ("HEADLESS", "No")];
          local_config := None |} t0) = VBool false /\
  health_render_deployment
    (health_check int_ascii {| environ := ∅; local_config := None |} t0)
  = VBool true.
Proof.
  split.
  - destruct (health_check_flags int_ascii
                {| environ := list_to_map [("RENDER", "true");
                                           ("HEADLESS", "No")];
                   local_config := None |} t0) as [Hr _].
    destruct Hr as (_ & b & Hb & Hiff); [vm_compute; reflexivity|].
    rewrite Hb. f_equal. apply Hiff. exists "No".
    split; [vm_compute; reflexivity|].
    vm_compute. intros H. apply list_elem_of_In in H. cbn in H.
    intuition discriminate.
  - destruct (health_check_flags int_ascii
                {| environ := ∅; local_config := None |} t0) as [_ Hl].
    apply Hl; vm_compute; reflexivity.
Defined.

(* --------------------------------------------------------------------- *)
(* The credentials                                                        *)
(* --------------------------------------------------------------------- *)


(** X6: a temporary file is written exactly when the source of the host (the
    variable on Render, when set and not empty; credentials.json
    otherwise) holds a JSON text that decodes to a value Python takes as
    true; the file then holds that value and its name is returned.  In
    every other case (no source, a text that is no JSON, null, an empty
    object) nothing is written and None is returned. *)
Theorem temp_file_needs_credentials (Json : Type)
    (json_truth : Json -> bool) (loads : string -> option (option Json))
    (dumps : Json -> string) (h : Host) (file : FileRead)
    (credentials : option Json) (name : string) :
  _load_credentials Json loads h file = inr credentials ->
  (exists text j, credentials_text h file = Some text /\
                  loads text = Some (Some j) /\ json_truth j = true /\
                  save_credentials_to_temp_file Json json_truth dumps
                    credentials name
                  = (Some name, Some (name, dumps j))) \/
  (save_credentials_to_temp_file Json json_truth dumps credentials name
   = (None, None) /\
   forall text j, credentials_text h file = Some text ->
                  loads text = Some (Some j) -> json_truth j = false).
Proof.
  unfold _load_credentials, credentials_text, save_credentials_to_temp_file.
  destruct (_detect_render_environment h).
  - destruct (getenv h "GOOGLE_CREDENTIALS_JSON") as [v|].
    + destruct (String.eqb v EmptyString).
      * intros [= <-]. right. done.
      * destruct (loads v) as [[j|]|] eqn:Hl; intros [= <-].
        -- destruct (json_truth j) eqn:Hj.
           ++ left. by exists v, j.
           ++ right. split; [done|]. intros text j' [= <-]. congruence.
        -- right. split; [done|]. intros text j' [= <-]. congruence.
        -- right. split; [done|]. intros text j' [= <-]. congruence.
    + intros [= <-]. right. done.
  - destruct file as [|text|m]; [| |done].
    + intros [= <-]. right. done.
    + destruct (loads text) as [[j|]|] eqn:Hl; intros [= <-].
      * destruct (json_truth j) eqn:Hj.
        -- left. by exists text, j.
        -- right. split; [done|]. intros text' j' [= <-]. congruence.
      * right. split; [done|]. intros text' j' [= <-]. congruence.
      * right. split; [done|]. intros text' j' [= <-]. congruence.
Qed.

Lemma temp_file_needs_credentials_witness :
  save_credentials_to_temp_file (list Z) toy_truth toy_dumps (Some [])
    "/tmp/tmpk3j2.json" = (None, None).
Proof.
  destruct (temp_file_needs_credentials (list Z) toy_truth toy_loads
              toy_dumps empty_credentials_host NotFound (Some [])
              "/tmp/tmpk3j2.json") as [(text & j & Ht & Hl & Hj & _)|[H _]].
  - vm_compute. reflexivity.
  - vm_compute in Ht. inversion Ht; subst text.
    vm_compute in Hl. inversion Hl; subst j. discriminate Hj.
  - exact H.
Defined.

(* --------------------------------------------------------------------- *)
(* The file routes                                                        *)
(* --------------------------------------------------------------------- *)


Lemma endswith_spec s suffix :
  endswith s suffix = true <-> exists stem, s = stem +:+ suffix.
Proof.
  split.
  - induction s as [|c s IH]; cbn [endswith].
    + rewrite orb_false_r. intros H. apply String.eqb_eq in H. subst.
      by exists EmptyString.
    + intros H. apply orb_true_iff in H as [H|H].
      * apply String.eqb_eq in H. by exists EmptyString.
      * destruct (IH H) as [stem ->]. by exists (String c stem).
  - intros [stem ->]. induction stem as [|c stem IH].
    + change (EmptyString +:+ suffix) with suffix.
      destruct suffix; cbn [endswith]; by rewrite String.eqb_refl.
    + change (String c stem +:+ suffix) with (String c (stem +:+ suffix)).
      cbn [endswith]. rewrite IH. apply orb_true_r.
Qed.

Lemma data_file_test name :
  endswith name ".csv" || endswith name ".xlsx" = true <-> data_file name.
Proof.
  rewrite orb_true_iff, !endswith_spec. unfold data_file.
  split.
  - intros [[stem ->]|[stem ->]]; exists stem; auto.
  - intros [stem [->| ->]]; [left|right]; by exists stem.
Qed.

Lemma find_entry_Some dir filename e :
  find_entry dir filename = Some e -> e ∈ dir /\ entry_name e = filename.
Proof.
  intros H. apply find_some in H as [Hin Heq].
  split; [by apply list_elem_of_In|by apply String.eqb_eq].
Qed.

Lemma find_entry_None dir filename e :
  find_entry dir filename = None -> e ∈ dir -> entry_name e <> filename.
Proof.
  intros H Hin Heq. apply list_elem_of_In in Hin.
  pose proof (find_none _ _ H e Hin) as Hn. simpl in Hn.
  apply String.eqb_neq in Hn. done.
Qed.


Lemma glob_star_spec suffix dir e :
  e ∈ glob_star suffix dir <->
  e ∈ dir /\ hidden (entry_name e) = false /\
  endswith (entry_name e) suffix = true.
Proof.
  unfold glob_star. rewrite !list_elem_of_In, filter_In.
  rewrite andb_true_iff, negb_true_iff. done.
Qed.

Lemma collect_infos_inr paths files :
  collect_infos paths = inr files ->
  files = (fun e => mk_file_info (entry_name e) (entry_size e)
                      (entry_modified e)) <$> paths /\
  forall e, e ∈ paths -> forall msg, entry_kind e <> Dangling msg.
Proof.
  revert files. induction paths as [|e paths IH]; intros files; simpl.
  - intros [= <-]. split; [done|]. intros e H. by apply elem_of_nil in H.
  - unfold file_info. destruct (entry_kind e) eqn:Hk; try done.
    all: destruct (collect_infos paths) as [|files'] eqn:Hc; try done.
    all: intros [= <-]; destruct (IH files' eq_refl) as [-> Hall].
    all: split; [done|].
    all: intros e' [->|Hin]%elem_of_cons msg'; [congruence|by apply Hall].
Qed.

Lemma collect_infos_inl paths msg :
  collect_infos paths = inl msg ->
  exists e, e ∈ paths /\ entry_kind e = Dangling msg.
Proof.
  induction paths as [|e paths IH]; simpl; [done|].
  unfold file_info. destruct (entry_kind e) eqn:Hk.
  - destruct (collect_infos paths) as [m|] eqn:Hc; [|done].
    intros [= ->]. destruct (IH eq_refl) as (e' & Hin & Hk').
    exists e'. split; [by apply list_elem_of_further|done].
  - destruct (collect_infos paths) as [m|] eqn:Hc; [|done].
    intros [= ->]. destruct (IH eq_refl) as (e' & Hin & Hk').
    exists e'. split; [by apply list_elem_of_further|done].
  - intros [= ->]. exists e. split; [apply list_elem_of_here|done].
Qed.

Lemma listed_paths dir e :
  e ∈ glob_star ".csv" dir ++ glob_star ".xlsx" dir <->
  e ∈ dir /\ hidden (entry_name e) = false /\ data_file (entry_name e).
Proof.
  rewrite elem_of_app, !glob_star_spec, <- data_file_test, orb_true_iff.
  tauto.
Qed.





(** X9: the listing is all or nothing.  It answers with an error, always 500,
    exactly when some entry it would show cannot be examined; otherwise it
    shows the entries of the directory that are not hidden and whose name
    ends with .csv or .xlsx, and no other. *)
Theorem listing_all_or_nothing (dir : Directory) :
  (forall msg code,
     list_files dir = FileError msg code ->
     code = 500 /\
     exists e, e ∈ dir /\ hidden (entry_name e) = false /\
               data_file (entry_name e) /\ entry_kind e = Dangling msg) /\
  (forall e msg, e ∈ dir -> hidden (entry_name e) = false ->
                 data_file (entry_name e) -> entry_kind e = Dangling msg ->
                 exists msg', list_files dir = FileError msg' 500) /\
  (forall files, list_files dir = FilesListed files ->
     forall name, name ∈ fi_name <$> files <->
       exists e, e ∈ dir /\ entry_name e = name /\
                 hidden name = false /\ data_file name) /\
  (forall e, list_files dir <> FileSent e).
Proof.
  unfold list_files. split; [|split; [|split]].
  - intros msg code H.
    destruct (collect_infos _) as [m|] eqn:Hc; [|done].
    inversion H; subst. split; [done|].
    apply collect_infos_inl in Hc as (e & Hin & Hk).
    apply listed_paths in Hin as (? & ? & ?). by exists e.
  - intros e msg Hin Hvis Hdata Hk.
    destruct (collect_infos _) as [m|files] eqn:Hc; [by exists m|].
    apply collect_infos_inr in Hc as [_ Hall].
    destruct (Hall e (proj2 (listed_paths dir e) (conj Hin (conj Hvis Hdata)))
                msg Hk).
  - intros files Hl name.
    destruct (collect_infos _) as [m|files'] eqn:Hc; [done|].
    inversion Hl; subst files'.
    apply collect_infos_inr in Hc as [-> _].
    rewrite <- list_fmap_compose. rewrite list_elem_of_fmap.
    split.
    + intros (e & -> & He). apply listed_paths in He as (? & ? & ?).
      by exists e.
    + intros (e & He & <- & Hvis & Hdata). exists e.
      split; [done|]. by apply listed_paths.
  - intros e. destruct (collect_infos _); done.
Qed.

Lemma listing_all_or_nothing_witness :
  exists msg', list_files broken_dir = FileError msg' 500.
Proof.
  destruct (listing_all_or_nothing broken_dir) as (_ & H & _).
  apply (H (mk_entry "old.csv"
              (Dangling "[Errno 2] No such file or directory: 'old.csv'")
              0%N EmptyString)
           "[Errno 2] No such file or directory: 'old.csv'").
  - unfold broken_dir. apply elem_of_app. right. apply list_elem_of_here.
  - reflexivity.
  - exists "old". by left.
  - reflexivity.
Defined.

(* A hidden data file is never listed, yet the download route sends it. *)
Example hidden_file_downloadable :
  list_files demo_dir
  = FilesListed [mk_file_info "schools.csv" 2048%N "2024-03-07T09:05:00";
                 mk_file_info "archive.xlsx" 4096%N "2024-03-02T00:00:00"] /\
  download_file demo_dir ".draft.csv"
  = FileSent (mk_entry ".draft.csv" Regular 10%N "2024-03-07T09:06:00") /\
  download_file demo_dir "archive.xlsx"
  = FileError "[Errno 21] Is a directory" 500.
Proof. vm_compute. done. Qed.

Lemma add_log_progress t msg s : progress (add_log t msg s) = progress s.
Proof. apply add_log_frame. Qed.

Lemma add_log_last t msg s :
  last (logs (add_log t msg s)) = Some (log_entry t msg).
Proof.
  rewrite add_log_logs. unfold last_n.
  rewrite length_app. simpl.
  rewrite drop_app_le by lia.
  rewrite last_snoc. done.
Qed.

Ltac counters :=
  unfold tallied in *;
  repeat (progress
            (rewrite ?add_log_progress; autorewrite with status;
             cbn [running set_running set_current_state set_progress
                  set_total_states set_completed_states set_failed_states
                  set_start_time completed_states failed_states
                  current_state total_states start_time progress
                  pc visited target_states]));
  rewrite ?length_app; cbn [length].

Lemma tally_step a c w :
  workers c = [w] -> tally w (status c) -> is_start a = false ->
  exists w', workers (fst (sys_step a c)) = [w'] /\
             tally w' (status (fst (sys_step a c))).
Proof.
  intros Hw Ht Ha. destruct c as [s ws]. simpl in *. subst ws.
  destruct a as [b0|t| |k e]; [done| | |].
  - exists w. split; [done|]. cbn [sys_step stop_scraper fst status].
    unfold tally in *. destruct (pc w); counters; done.
  - by exists w.
  - destruct k as [|k]; [|by exists w].
    rewrite sys_step_alone. eexists. split; [reflexivity|].
    destruct w as [tg p vis]. unfold tally in *.
    cbn [status pc visited target_states] in *.
    destruct p as [ | | | |c|c|c|rs i|b rs i name| |msg| | | ];
      cbv beta iota delta [worker_step body_step goto enter pc target_states
                           visited fst snd].
    + counters. done.
    + counters. done.
    + counters. done.
    + destruct (construct e); counters; done.
    + destruct Ht as (? & ? & ?).
      destruct tg as [|[|x l]|ty]; cbn [truthy regions_for]; counters; done.
    + destruct Ht as (? & ? & -> & ?). counters. repeat split; try done; lia.
    + destruct Ht as (? & ? & -> & ?). counters. repeat split; try done; lia.
    + destruct Ht as (Htot & Hi & Hv & Hp & Hc).
      destruct (rs !! i) as [name|] eqn:Hname;
        [destruct (running s)|]; counters.
      * apply lookup_lt_Some in Hname. repeat split; try done; lia.
      * repeat split; try done; lia.
      * repeat split; try done; lia.
    + destruct Ht as (Htot & Hi & Hv & Hp & Hc).
      destruct b; counters; try (repeat split; try done; lia).
      destruct (process_complete_state e name) as [[|]|msg];
        counters; done.
    + counters. done.
    + destruct Ht as (? & ? & ->). counters. repeat split; try done; lia.
    + counters. done.
    + counters. done.
    + counters. done.
Qed.

Lemma tally_exec sched : forall c w,
  workers c = [w] -> tally w (status c) -> no_start sched ->
  exists w', workers (exec sched c) = [w'] /\ tally w' (status (exec sched c)).
Proof.
  induction sched as [|a sched IH]; intros c w Hw Ht Hns.
  - by exists w.
  - inversion Hns as [|? ? Ha Hns']; subst.
    destruct (tally_step a c w Hw Ht Ha) as (w1 & Hw1 & Ht1).
    by apply (IH _ w1).
Qed.


Lemma closing_step catalog body a c w :
  sized body ->
  workers c = [w] -> closing catalog body w (status c) -> quiet catalog a ->
  exists w', workers (fst (sys_step a c)) = [w'] /\
             closing catalog body w' (status (fst (sys_step a c))).
Proof.
  intros Hsized Hw [Htg Hcl] Ha. destruct c as [s ws]. simpl in *. subst ws.
  destruct a as [b0|t| |k e]; [done|done| |].
  - by exists w.
  - destruct k as [|k]; [|by exists w].
    rewrite sys_step_alone. eexists. split; [reflexivity|].
    destruct w as [tg p vis]. unfold closing in *.
    cbn [status pc visited target_states] in *. subst tg. simpl in Ha.
    destruct p as [ | | | |c|c|c|rs i|b rs i name| |msg| | | ];
      cbv beta iota delta [worker_step body_step goto enter pc target_states
                           visited fst snd].
    + counters. done.
    + counters. done.
    + counters. done.
    + rewrite Ha. counters. done.
    + subst c.
      destruct body as [|[|x l]|ty]; cbn [truthy regions_for]; counters; done.
    + destruct Hcl as [-> ?]. counters. done.
    + destruct Hcl as [-> ?]. counters. done.
    + destruct (rs !! i) as [name|]; [destruct (running s)|]; counters; done.
    + destruct b; counters; try done.
      destruct (process_complete_state e name) as [[|]|msg]; counters; done.
    + counters. split; [done|]. split; [done|].
      exists (now e). rewrite add_log_last. unfold summary_line.
      by counters.
    + done.
    + destruct Hcl as (? & t & Hlast). counters.
      split; [done|]. split; [done|]. exists t. done.
    + destruct Hcl as (? & t & Hlast). counters.
      split; [done|]. split; [done|]. exists t. done.
    + done.
Qed.

Lemma closing_exec catalog body sched : forall c w,
  sized body ->
  workers c = [w] -> closing catalog body w (status c) ->
  Forall (quiet catalog) sched ->
  exists w', workers (exec sched c) = [w'] /\
             closing catalog body w' (status (exec sched c)).
Proof.
  induction sched as [|a sched IH]; intros c w Hsized Hw Hcl Hq.
  - by exists w.
  - inversion Hq as [|? ? Ha Hq']; subst.
    destruct (closing_step catalog body a c w Hsized Hw Hcl Ha)
      as (w1 & Hw1 & Hcl1).
    by apply (IH _ w1).
Qed.

Lemma solo_quiet clock catalog f t n :
  Forall (quiet catalog) (solo clock (Built catalog) f t n) /\
  no_start (solo clock (Built catalog) f t n).
Proof.
  unfold solo, no_start. split; apply Forall_fmap, Forall_forall; done.
Qed.



(** X11: a run that nobody stops, over n regions: at its end total_states is n,
    the progress index is n - 1 (0 when there is no region), the two lists
    together hold n names, and the last line of the log is the summary
    with the lengths of the two lists. *)
Theorem unstopped_run_totals (clock : nat -> datetime)
    (catalog : list string) (f : string -> Outcome) (body : Targets)
    (s0 : Status) :
  running s0 = false -> sized body ->
  let n := length (regions_for body catalog) in
  let s := status (exec (solo clock (Built catalog) f 0 (7 * n + 10))
                     (started body s0)) in
  total_states s = n /\ progress s = pred n /\
  length (completed_states s) + length (failed_states s) = n /\
  exists t, last (logs s) = Some (log_entry t (summary_line s)).
Proof.
  intros Hidle Hsized n s.
  destruct (solo_run_records clock catalog f body s0 Hidle Hsized)
    as ((w & Hw & Hpc & Hvis) & _).
  destruct (solo_quiet clock catalog f 0 (7 * n + 10)) as [Hq Hns].
  assert (workers (started body s0)
          = [{| target_states := body; pc := L53; visited := [] |}]) as Hw0.
  { unfold started, start_scraper. simpl. by rewrite Hidle. }
  destruct (tally_exec (solo clock (Built catalog) f 0 (7 * n + 10)) _ _ Hw0)
    as (w1 & Hw1 & Ht); [|done|].
  { unfold started, start_scraper. simpl. rewrite Hidle. simpl. done. }
  destruct (closing_exec catalog body
              (solo clock (Built catalog) f 0 (7 * n + 10)) _ _ Hsized Hw0)
    as (w2 & Hw2 & _ & Hcl); [|done|].
  { unfold started, start_scraper. simpl. rewrite Hidle. simpl. done. }
  change (workers (exec (solo clock (Built catalog) f 0 (7 * n + 10))
                     (started body s0)) = [w]) in Hw.
  rewrite Hw in Hw1, Hw2. inversion Hw1; subst w1. inversion Hw2; subst w2.
  unfold tally in Ht. rewrite Hpc in Ht, Hcl. rewrite Hvis in Ht.
  destruct Ht as (_ & Hprog & Htally). destruct Hcl as (Htotal & Hlast).
  unfold tallied in Htally. done.
Qed.

Lemma unstopped_run_totals_witness :
  let s := status (exec (solo clock0 (Built ["Assam"]) moody 0 31)
                     (started (TList ["Kerala"; "Goa"; "Sikkim"])
                        initial_status)) in
  total_states s = 3 /\ progress s = 2 /\
  length (completed_states s) + length (failed_states s) = 3 /\
  exists t, last (logs s) = Some (log_entry t (summary_line s)).
Proof.
  apply (unstopped_run_totals clock0 ["Assam"] moody
           (TList ["Kerala"; "Goa"; "Sikkim"]) initial_status);
    [reflexivity|exact I].
Defined.



Lemma akin_worker_step e w w' s :
  akin_worker w w' ->
  snd (worker_step e w s) = snd (worker_step e w' s) /\
  akin_worker (fst (worker_step e w s)) (fst (worker_step e w' s)).
Proof.
  destruct w as [tg p vis], w' as [tg' p' vis'].
  unfold akin_worker. cbn [pc visited target_states].
  intros (<- & <- & [<-|[Hn Hn']]).
  - split; [done|]. repeat split; try done. by left.
  - destruct Hn as [-> | ->], Hn' as [-> | ->];
      destruct p as [ | | | |c|c|c|rs i|b rs i name| |msg| | | ];
      cbv beta iota delta [worker_step body_step goto enter pc target_states
                           visited fst snd truthy regions_for targets_len];
      repeat match goal with
             | b : BodyPoint |- _ => destruct b
             | |- context [construct ?e] => destruct (construct e)
             | |- context [?rs !! ?i] => destruct (rs !! i)
             | |- context [running ?s] => destruct (running s)
             | |- context [process_complete_state ?e ?n] =>
                 destruct (process_complete_state e n) as [[|]|?]
             end;
      (split; [done|]); (split; [done|]); (split; [done|]);
      right; unfold no_selection; split; auto.
Qed.

Lemma akin_step a c c' :
  akin c c' -> akin (fst (sys_step a c)) (fst (sys_step a c')).
Proof.
  intros [Hs Hw]. destruct c as [s ws], c' as [s' ws'].
  cbn [status workers] in *. subst s'.
  destruct a as [body|t| |k e]; cbn [sys_step status workers].
  - unfold start_scraper. cbn [status workers].
    destruct (running s); cbn [fst]; split; cbn [status workers]; try done.
    apply Forall2_app; [done|]. constructor; [|constructor].
    repeat split; by left.
  - split; cbn [fst status workers stop_scraper]; done.
  - by split.
  - destruct (ws !! k) as [w|] eqn:Hk.
    + destruct (Forall2_lookup_l _ _ _ _ _ Hw Hk) as (w' & Hk' & Hak).
      rewrite Hk'.
      destruct (akin_worker_step e w w' s Hak) as [Hsnd Hfst].
      destruct (worker_step e w s) as [w1 s1],
               (worker_step e w' s) as [w1' s1'].
      cbn [fst snd] in *. subst s1'. split; cbn [status workers]; [done|].
      by apply Forall2_insert.
    + assert (ws' !! k = None) as ->.
      { apply Forall2_length in Hw. apply lookup_ge_None.
        apply lookup_ge_None in Hk. lia. }
      by split.
Qed.

Lemma akin_exec sched : forall c c',
  akin c c' -> akin (exec sched c) (exec sched c').
Proof.
  induction sched as [|a sched IH]; intros c c' H; [done|].
  simpl. apply IH. by apply akin_step.
Qed.

(** X13: an empty selection is no selection: a start request whose 'states'
    value is an empty array is served like one without the key.  Whatever
    happens afterwards (thread steps, requests, polls, in any order and
    with any processor), the status record is the same in both cases at
    every point: the run goes over all the states of the processor. *)
Theorem empty_selection_is_no_selection (sched : list Action) (s0 : Status) :
  status (exec sched (started (TList []) s0))
  = status (exec sched (started TNone s0)).
Proof.
  apply akin_exec. unfold started, start_scraper. cbn [status workers].
  destruct (running s0); cbn [fst]; split; cbn [status workers]; try done.
  constructor; [|constructor]. repeat split; try done.
  right. split; [by right|by left].
Qed.

Lemma lstrip_split (w : text) :
  exists pre, w = pre ++ lstrip w /\ Forall (fun x => is_space x = true) pre.
Proof.
  induction w as [|x w IH]; [by exists []|].
  simpl. destruct (is_space x) eqn:Hx.
  - destruct IH as (pre & Heq & Hall). exists (x :: pre).
    split; [simpl; congruence|by constructor].
  - by exists [].
Qed.

Lemma lstrip_head (w : text) x :
  head (lstrip w) = Some x -> is_space x = false.
Proof.
  induction w as [|y w IH]; [done|].
  simpl. destruct (is_space y) eqn:Hy; [done|].
  simpl. intros [= <-]. done.
Qed.

Lemma rstrip_split (w : text) :
  exists post, w = rstrip w ++ post /\ Forall (fun x => is_space x = true) post.
Proof.
  unfold rstrip. destruct (lstrip_split (reverse w)) as (pre & Heq & Hall).
  exists (reverse pre). split.
  - rewrite <- reverse_app, <- Heq. by rewrite reverse_involutive.
  - by apply Forall_reverse.
Qed.

Lemma last_reverse {A} (l : list A) : last (reverse l) = head l.
Proof. destruct l as [|x l]; [done|]. by rewrite reverse_cons, last_snoc. Qed.

Lemma rstrip_last (w : text) y :
  last (rstrip w) = Some y -> is_space y = false.
Proof. unfold rstrip. rewrite last_reverse. apply lstrip_head. Qed.

Lemma strip_ends (w : text) :
  strip w = [] \/
  exists x y, head (strip w) = Some x /\ last (strip w) = Some y /\
              is_space x = false /\ is_space y = false.
Proof.
  unfold strip.
  destruct (rstrip (lstrip w)) as [|x r] eqn:Hr; [by left|right].
  destruct (last (x :: r)) as [y|] eqn:Hy;
    [|by apply last_None in Hy].
  exists x, y. repeat split; try done.
  - destruct (rstrip_split (lstrip w)) as (post & Heq & _).
    rewrite Hr in Heq. apply (lstrip_head w). by rewrite Heq.
  - apply (rstrip_last (lstrip w)). by rewrite Hr.
Qed.

Lemma strip_idemp (w : text) : strip (strip w) = strip w.
Proof.
  destruct (strip_ends w) as [->|(x & y & Hh & Hl & Hx & Hy)]; [done|].
  by apply (strip_id _ x y).
Qed.

Lemma strip_keeps (w : text) x :
  x ∈ w -> is_space x = false -> x ∈ strip w.
Proof.
  intros Hin Hx. unfold strip.
  destruct (lstrip_split w) as (pre & Heq & Hpre).
  destruct (rstrip_split (lstrip w)) as (post & Heq' & Hpost).
  rewrite Heq in Hin. apply elem_of_app in Hin as [Hin|Hin].
  { rewrite Forall_forall in Hpre. specialize (Hpre x Hin). congruence. }
  rewrite Heq' in Hin. apply elem_of_app in Hin as [Hin|Hin]; [done|].
  rewrite Forall_forall in Hpost. specialize (Hpost x Hin). congruence.
Qed.

Lemma extract_cases ua html txt :
  (extract_email_from_html ua html txt = sentinel /\
   search ua span_pattern html = None /\
   search ua mailto_pattern html = None /\
   search ua email_pattern txt = None) \/
  (exists w, extract_email_from_html ua html txt = strip w /\ at_sign ∈ w /\
     (is_Some (search ua span_pattern html) \/
      is_Some (search ua mailto_pattern html) \/
      is_Some (search ua email_pattern txt))).
Proof.
  unfold extract_email_from_html.
  destruct (search ua span_pattern html) as [m|] eqn:H1.
  { right. destruct (span_search_shape ua html m H1)
      as (pre & a1 & a2 & a3 & a4 & local & domain & post & _ & _ & ->).
    eexists. split; [reflexivity|]. split; [|left; eauto].
    apply elem_of_app. right. apply list_elem_of_here. }
  destruct (search ua mailto_pattern html) as [m|] eqn:H2.
  { right. destruct (mailto_search_shape ua html m H2)
      as (pre & local & domain & post & _ & _ & ->).
    eexists. split; [reflexivity|]. split; [|right; left; eauto].
    apply elem_of_app. right. apply list_elem_of_here. }
  destruct (search ua email_pattern txt) as [m|] eqn:H3.
  { right. destruct (email_search_shape ua txt m H3)
      as (pre & w & post & _ & Hat & -> & _).
    exists w. split; [reflexivity|]. split; [|right; right; eauto].
    destruct Hat as (local & host & tld & -> & _).
    apply elem_of_app. right. apply list_elem_of_here. }
  left. done.
Qed.

(** X14: the value is "N/A" exactly when nothing is found: the markup holds
    neither a span element with the marker class nor a mail link target,
    and the text holds no e-mail-shaped substring.  No markup and no text
    make a strategy give "N/A" as the address it found. *)
Theorem not_available_iff_nothing_found (ua : N -> bool) (html txt : text) :
  extract_email_from_html ua html txt = sentinel <->
  ~ contains_marker html /\ ~ contains_mailto html /\
  ~ contains_email ua txt.
Proof.
  rewrite <- search_span_iff, <- search_mailto_iff, <- search_email_iff.
  destruct (extract_cases ua html txt)
    as [(Hr & H1 & H2 & H3)|(w & Hr & Hw & Hsome)].
  - rewrite H1, H2, H3. split; [|done].
    intros _. repeat split; by intros [? ?].
  - split; [|tauto].
    intros Hs. exfalso. rewrite Hr in Hs.
    assert (at_sign ∈ strip w) as Hin by (by apply strip_keeps).
    rewrite Hs in Hin. unfold sentinel, at_sign in Hin. cbn [cp] in Hin.
    rewrite !elem_of_cons, elem_of_nil in Hin.
    destruct Hin as [Hin|[Hin|[Hin|[]]]]; discriminate Hin.
Qed.

(** X15: whatever the markup and the text, the value returned is not empty,
    has no white space at either end (trimming it again changes nothing),
    and holds an at sign unless it is "N/A". *)
Theorem extracted_value_is_trimmed (ua : N -> bool) (html txt : text) :
  let email := extract_email_from_html ua html txt in
  email <> [] /\ strip email = email /\
  (email = sentinel \/ at_sign ∈ email).
Proof.
  intros email. subst email.
  destruct (extract_cases ua html txt)
    as [(-> & _)|(w & -> & Hw & _)].
  - split; [done|]. split; [reflexivity|by left].
  - assert (at_sign ∈ strip w) as Hin by (by apply strip_keeps).
    split; [|split; [apply strip_idemp|by right]].
    intros Hnil. rewrite Hnil in Hin. by apply elem_of_nil in Hin.
Qed.

Lemma greedy_spaces (k : Cursor -> text -> option Cursor) :
  (forall c r, k c r = Some c) ->
  forall rest c,
  exists c', repeat_greedy Space 0 k c rest = Some c' /\
    exists n, pos c' = pos c + n /\ drop n rest = lstrip rest.
Proof.
  intros Hk. induction rest as [|x rest IH]; intros c.
  - exists c. split; [apply Hk|]. exists 0. split; [lia|done].
  - cbn [repeat_greedy atom_match lstrip Nat.pred].
    destruct (is_space x) eqn:Hx.
    + destruct (IH (advance x c)) as (c' & -> & n & Hn & Hd).
      exists c'. split; [done|]. exists (S n).
      split; [cbn [pos advance] in Hn; lia|done].
    + exists c. split; [apply Hk|]. exists 0. split; [lia|done].
Qed.

Lemma spaces_match ua c x rest :
  if is_space x then
    exists c' k, match_here ua spaces_pattern c (x :: rest) = Some c' /\
                 pos c' = pos c + S k /\
                 drop (S k) (x :: rest) = lstrip (x :: rest)
  else match_here ua spaces_pattern c (x :: rest) = None.
Proof.
  unfold spaces_pattern.
  cbn [match_here repeat_greedy atom_match lstrip Nat.pred].
  destruct (is_space x) eqn:Hx; [|done].
  destruct (greedy_spaces (match_here ua []) (fun c r => eq_refl) rest
              (advance x c)) as (c' & E & k & Hk & Hd).
  cbn [match_here] in E. rewrite E.
  exists c', k. split; [done|]. split; [cbn [pos advance] in Hk; lia|done].
Qed.

Lemma lstrip_length (w : text) : length (lstrip w) <= length w.
Proof.
  induction w as [|x w IH]; [done|]. simpl. destruct (is_space x); simpl; lia.
Qed.

Lemma lstrip_head_cases (w : text) :
  lstrip w = [] \/ exists y r, lstrip w = y :: r /\ is_space y = false.
Proof.
  destruct (lstrip w) as [|y r] eqn:E; [by left|right].
  exists y, r. split; [done|]. apply (lstrip_head w). by rewrite E.
Qed.

Lemma collapse_spaces ua : forall fuel rest i before,
  length rest <= fuel ->
  single_spaced (sub_loop ua fuel spaces_pattern (cp " ") i before rest) /\
  (forall y r, rest = y :: r -> is_space y = false ->
     head (sub_loop ua fuel spaces_pattern (cp " ") i before rest) = Some y).
Proof.
  induction fuel as [|fuel IH]; intros rest i before Hlen.
  - destruct rest; [|simpl in Hlen; lia]. done.
  - destruct rest as [|x rest]; [done|].
    cbn [sub_loop].
    pose proof (spaces_match ua (mk_cursor i before [] []) x rest) as Hm.
    destruct (is_space x) eqn:Hx.
    + destruct Hm as (c' & k & -> & Hp & Hd). cbn [pos] in Hp.
      rewrite decide_True by lia.
      replace (pos c' - i) with (S k) by lia. rewrite Hd.
      assert (length (lstrip (x :: rest)) <= fuel) as Hfuel.
      { cbn [lstrip]. rewrite Hx. pose proof (lstrip_length rest).
        simpl in Hlen. lia. }
      destruct (IH (lstrip (x :: rest)) (pos c')
                  (prev_after before (take (S k) (x :: rest))) Hfuel)
        as [Hss Hhd].
      split; [|intros y r Heq Hy; inversion Heq; subst; congruence].
      cbn [cp app single_spaced]. split; [|done].
      intros _. split; [done|].
      destruct (lstrip_head_cases (x :: rest)) as [E|(y & r & E & Hy)].
      * rewrite E in *. destruct fuel; simpl; done.
      * specialize (Hhd y r E Hy). rewrite E in *. cbn [cp] in Hhd.
        destruct (sub_loop ua fuel spaces_pattern [N_of_ascii " "] 
                    (pos c') _ (y :: r)); [done|].
        simpl in Hhd. inversion Hhd; subst. done.
    + rewrite Hm.
      destruct (IH rest (S i) (Some x)) as [Hss Hhd]; [simpl in Hlen; lia|].
      split; [|intros y r Heq _; inversion Heq; subst; done].
      cbn [single_spaced]. split; [|done]. congruence.
Qed.

Lemma single_spaced_app_r (u v : text) : single_spaced (u ++ v) -> single_spaced v.
Proof. induction u as [|x u IH]; [done|]. simpl. intros [_ H]. by apply IH. Qed.

Lemma single_spaced_app_l (u v : text) : single_spaced (u ++ v) -> single_spaced u.
Proof.
  induction u as [|x u IH]; [done|]. simpl. intros [Hx H].
  split; [|by apply IH]. intros Hs. destruct (Hx Hs) as [-> Hn].
  split; [done|]. destruct u; [done|]. done.
Qed.

Lemma strip_single_spaced (w : text) : single_spaced w -> single_spaced (strip w).
Proof.
  intros H. unfold strip.
  destruct (lstrip_split w) as (pre & Heq & _).
  destruct (rstrip_split (lstrip w)) as (post & Heq' & _).
  rewrite Heq in H. apply single_spaced_app_r in H.
  rewrite Heq' in H. by apply single_spaced_app_l in H.
Qed.

Lemma single_spaced_lookup (w : text) : forall i x,
  single_spaced w -> w !! i = Some x -> is_space x = true ->
  x = 32%N /\ forall y, w !! S i = Some y -> is_space y = false.
Proof.
  induction w as [|z w IH]; intros i x Hss Hi Hx; [done|].
  destruct Hss as [Hz Hss]. destruct i as [|i].
  - simpl in Hi. inversion Hi; subst z. destruct (Hz Hx) as [-> Hn].
    split; [done|]. intros y Hy. destruct w; [done|].
    simpl in Hy. by inversion Hy; subst.
  - simpl in Hi. by apply (IH i x).
Qed.

(** X16: the text the harness derives from markup is in normal form: each of
    its white-space characters is a U+0020 that stands between two
    characters that are not white space.  So the text has no white space
    at either end, no tab or line break, and no run of spaces. *)
Theorem text_content_normal_form (ua : N -> bool) (html : text) (i : nat)
    (x : N) :
  text_content ua html !! i = Some x -> is_space x = true ->
  x = 32%N /\
  exists before after,
    0 < i /\ text_content ua html !! pred i = Some before /\
    text_content ua html !! S i = Some after /\
    is_space before = false /\ is_space after = false.
Proof.
  unfold text_content.
  set (flat := Re.sub ua spaces_pattern (cp " ")
                 (Re.sub ua tag_pattern (cp " ") html)).
  assert (single_spaced flat) as Hflat.
  { unfold flat, Re.sub. by apply collapse_spaces. }
  apply strip_single_spaced in Hflat.
  intros Hi Hx.
  destruct (single_spaced_lookup _ i x Hflat Hi Hx) as [-> Hnext].
  split; [done|].
  destruct (strip_ends flat) as [E|(h & l & Hh & Hl & Hhs & Hls)].
  { rewrite E in Hi. done. }
  destruct i as [|i].
  { exfalso. rewrite head_lookup in Hh.
    pose proof (eq_trans (eq_sym Hh) Hi) as Heq. inversion Heq; subst h.
    rewrite Hx in Hhs. discriminate. }
  destruct (strip flat !! i) as [b|] eqn:Hb;
    [|apply lookup_ge_None in Hb; apply lookup_lt_Some in Hi; lia].
  destruct (strip flat !! S (S i)) as [a|] eqn:Ha.
  - exists b, a. split; [lia|]. split; [done|]. split; [done|].
    split; [|by apply Hnext].
    destruct (is_space b) eqn:Hbs; [|done].
    destruct (single_spaced_lookup _ i b Hflat Hb Hbs) as [_ Hn].
    specialize (Hn _ Hi). done.
  - exfalso. rewrite last_lookup in Hl.
    apply lookup_ge_None in Ha. pose proof (lookup_lt_Some _ _ _ Hi) as Hlt.
    replace (pred (length (strip flat))) with (S i) in Hl by lia.
    pose proof (eq_trans (eq_sym Hl) Hi) as Heq. inversion Heq; subst l.
    rewrite Hx in Hls. discriminate.
Qed.

Lemma text_content_normal_form_witness :
  32%N = 32%N /\
  exists before after,
    0 < 8 /\ text_content no_alnum case_plain !! pred 8 = Some before /\
    text_content no_alnum case_plain !! 9 = Some after /\
    is_space before = false /\ is_space after = false.
Proof.
  apply (text_content_normal_form no_alnum case_plain 8 32%N);
    vm_compute; reflexivity.
Defined.

Lemma email_match_shape ua e c :
  re_match ua email_pattern e = Some c ->
  exists w rest, e = w ++ rest /\ email_at ua None w rest.
Proof.
  unfold re_match. intros H.
  apply match_here_sound in H as [rest HM].
  rewrite email_pattern_unfold in HM.
  invert_matches.
  match goal with
  | |- context [?lo ++ _ :: ?ho ++ _ :: ?tl ++ rest] =>
      rename lo into local; rename ho into host; rename tl into tld
  end.
  exists (local ++ cp "@" ++ host ++ cp "." ++ tld), rest.
  split; [rewrite <- !app_assoc; cbn [cp app]; reflexivity|].
  exists local, host, tld. unfold all_in.
  repeat match goal with
         | H : at_boundary _ _ _ = true |- _ => revert H
         end.
  cbn [prev]. rewrite prev_advance_all. cbn [prev advance].
  intros Hb1 Hb2.
  repeat split; try done.
  + intros ->; simpl in *; lia.
  + intros ->; simpl in *; lia.
  + rewrite <- !app_assoc. cbn [cp app]. done.
  + cbn [cp app]. destruct tld as [|t1 tld]; [simpl in *; lia|].
    rewrite prev_after_last in Hb2.
    by rewrite last_skip, app_comm_cons, last_skip, last_cons_cons.
Qed.

(** X17: the check accepts the placeholder "N/A" and every text that begins
    with an e-mail-shaped text, whatever follows it, and nothing else:
    None, the empty text and a text without such a beginning are
    refused. *)
Theorem validation_checks_the_beginning (ua : N -> bool)
    (email : option text) :
  is_valid ua email = true <->
  email = Some sentinel \/
  exists w rest, email = Some (w ++ rest) /\ email_at ua None w rest.
Proof.
  unfold is_valid. destruct email as [e|].
  - destruct (decide (e = sentinel)) as [->|Hs]; [split; [by left|done]|].
    destruct (decide (e = [])) as [->|He].
    + split; [done|]. intros [Heq|(w & rest & Heq & Hat)]; [discriminate|].
      exfalso. inversion Heq as [Hnil].
      destruct Hat as (local & host & tld & -> & Hl & _).
      symmetry in Hnil. apply app_eq_nil in Hnil as [Hnil _].
      apply app_eq_nil in Hnil as [-> _]. done.
    + destruct (re_match ua email_pattern e) as [c|] eqn:Hm.
      * split; [|done]. intros _. right.
        destruct (email_match_shape ua e c Hm) as (w & rest & -> & Hat).
        by exists w, rest.
      * split; [done|]. intros [Heq|(w & rest & Heq & Hat)].
        { inversion Heq. done. }
        exfalso. inversion Heq; subst e.
        destruct (email_matches ua (mk_cursor 0 None [] []) w rest Hat)
          as (c' & HM & _).
        apply match_here_complete in HM as [c Hc].
        unfold re_match in Hm. congruence.
  - split; [done|]. intros [Heq|(w & rest & Heq & _)]; discriminate.
Qed.

(* The e-mail check on the cases of lines 98-106, and on a text with an
   address at its beginning only. *)
Example validation_cases :
  is_valid no_alnum (Some (cp "ampsbhatubasti11@gmail.com")) = true /\
  is_valid no_alnum (Some (cp "school.contact@education.gov.in")) = true /\
  is_valid no_alnum (Some (cp "principal@schoolname.edu.in")) = true /\
  is_valid no_alnum (Some (cp "N/A")) = true /\
  is_valid no_alnum (Some (cp "invalid-email")) = false /\
  is_valid no_alnum (Some []) = false /\
  is_valid no_alnum None = false /\
  is_valid no_alnum (Some (cp "a@b.cd, or call the office")) = true /\
  is_valid no_alnum (Some (cp "write to a@b.cd")) = false.
Proof. vm_compute. done. Qed.
